(** * Peptide-match evaluation engine of NovoBench ([pynovo/metrics/evaluate.py])

    A shallow embedding of [split_peptide], [aa_match_prefix], [aa_match],
    [aa_match_batch] and [aa_match_metrics], and the properties of the
    specification that concern them.

    Modelling choices.
    - Python floats (token masses, tolerances, metric values) are idealised as
      exact rationals [Q]: no rounding, no infinities, no NaN. The properties
      that would not survive an overflow (a peptide against itself, peptides
      of equal masses) are stated instead on the aligner over IEEE 754
      binary64 numbers, module [Binary64].
    - The counts given to [aa_match_metrics] and [aa_precision_recall] are
      Python ints, [Z]; a division by a count that may be a numpy integer
      follows numpy (a NaN or an infinity where Python raises).
    - Python ints (the cursors [i1], [i2], which reach [-1] in the suffix
      walk) are [Z]; lengths and array positions are [nat].
    - A numpy boolean array is a [list bool] of fixed length, written by index
      with stdpp's [<[i:=b]>].
    - [aa_dict] is an association list in insertion order (first binding of a
      key wins), [ptm_list] a list of tokens.
    - A [while] loop is the iteration of its body under its guard, with a
      fuel that is proved sufficient. *)

From Stdlib Require Import ZArith QArith Qabs Qfield Lqa Lia String Ascii List Bool Sorted.
From Stdlib Require Import Floats.
From stdpp Require Import base list.

Import ListNotations.
Local Open Scope Z_scope.

(** ** Numbers *)

Definition Qltb (x y : Q) : bool := negb (Qle_bool y x).

(** [spectrum_utils.utils.mass_diff], a function of the third-party package
    [spectrum_utils] that the aligner imports: the plain difference in Dalton
    mode, the relative difference in ppm otherwise. The aligner only calls it
    in Dalton mode. *)
Definition mass_diff (mz1 mz2 : Q) (mode_is_da : bool) : Q :=
  if mode_is_da then (mz1 - mz2)%Q
  else ((mz1 - mz2) / mz2 * (1000000 # 1))%Q.

(** ** Dictionaries, token lists, boolean arrays *)

Definition aa_dict_t := list (string * Q).

Fixpoint dict_get (d : aa_dict_t) (k : string) (dflt : Q) : Q :=
  match d with
  | [] => dflt
  | (k', v) :: d' => if String.eqb k' k then v else dict_get d' k dflt
  end.

Definition dict_keys (d : aa_dict_t) : list string := map fst d.

Fixpoint str_in (s : string) (l : list string) : bool :=
  match l with
  | [] => false
  | x :: l' => String.eqb s x || str_in s l'
  end.

(** [peptide[i]]. The loop guards keep the cursor inside the list (lemmas
    [prefix_turn_in_range] and [suffix_turn_in_range]), so the default is
    never taken. *)
Definition tok (p : list string) (i : Z) : string :=
  default EmptyString (p !! Z.to_nat i).

(** [np.zeros(n, np.bool_)] *)
Definition np_zeros (n : nat) : list bool := replicate n false.

(** [a.all()] *)
Definition np_all (a : list bool) : bool := forallb (fun b => b) a.

(** [a.sum()] of a boolean array *)
Definition np_sum (a : list bool) : nat := length (filter (fun b => b = true) a).

(** [np.argwhere(~a)[0]]: the first position holding [False]. *)
Fixpoint first_false (a : list bool) : nat :=
  match a with
  | [] => O
  | b :: a' => if b then S (first_false a') else O
  end.

(** ** The two walks of the aligner *)

Record walk := MkWalk {
  w_i1 : Z;
  w_i2 : Z;
  w_cum1 : Q;
  w_cum2 : Q;
  w_aa : list bool;
  w_ptm1 : list bool;
  w_ptm2 : list bool
}.

Section Aligner.
Variables peptide1 peptide2 : list string.
Variable aa_dict : aa_dict_t.
Variable ptm_list : list string.
Variables cum_mass_threshold ind_mass_threshold : Q.

(** The body shared by both [while] loops; [dir] is [1] in the prefix walk
    and [-1] in the suffix walk. *)
Definition walk_body (dir : Z) (w : walk) : walk :=
  let aa_mass1 := dict_get aa_dict (tok peptide1 (w_i1 w)) 0 in
  let aa_mass2 := dict_get aa_dict (tok peptide2 (w_i2 w)) 0 in
  if Qltb (Qabs (mass_diff (w_cum1 w + aa_mass1) (w_cum2 w + aa_mass2) true))
          cum_mass_threshold
  then
    let idx := Z.to_nat (Z.max (w_i1 w) (w_i2 w)) in
    let m := Qltb (Qabs (mass_diff aa_mass1 aa_mass2 true)) ind_mass_threshold in
    MkWalk (w_i1 w + dir) (w_i2 w + dir)
           (w_cum1 w + aa_mass1) (w_cum2 w + aa_mass2)
           (<[idx := m]> (w_aa w))
           (if m then <[idx := str_in (tok peptide1 (w_i1 w)) ptm_list]> (w_ptm1 w)
            else w_ptm1 w)
           (if m then <[idx := str_in (tok peptide2 (w_i2 w)) ptm_list]> (w_ptm2 w)
            else w_ptm2 w)
  else if Qltb (w_cum1 w + aa_mass1) (w_cum2 w + aa_mass2)
  then MkWalk (w_i1 w + dir) (w_i2 w) (w_cum1 w + aa_mass1) (w_cum2 w)
              (w_aa w) (w_ptm1 w) (w_ptm2 w)
  else MkWalk (w_i1 w) (w_i2 w + dir) (w_cum1 w) (w_cum2 w + aa_mass2)
              (w_aa w) (w_ptm1 w) (w_ptm2 w).

(** [while i1 < len(peptide1) and i2 < len(peptide2)] *)
Definition prefix_guard (w : walk) : bool :=
  (w_i1 w <? Z.of_nat (length peptide1)) && (w_i2 w <? Z.of_nat (length peptide2)).

(** [while i1 >= i_stop and i2 >= i_stop] *)
Definition suffix_guard (i_stop : Z) (w : walk) : bool :=
  (i_stop <=? w_i1 w) && (i_stop <=? w_i2 w).

Fixpoint while (guard : walk -> bool) (body : walk -> walk) (fuel : nat) (w : walk)
  : walk :=
  match fuel with
  | O => w
  | S fuel' => if guard w then while guard body fuel' (body w) else w
  end.

Definition walk_fuel : nat := length peptide1 + length peptide2.

Definition prefix_init : walk :=
  let n := Nat.max (length peptide1) (length peptide2) in
  MkWalk 0 0 0 0 (np_zeros n) (np_zeros n) (np_zeros n).

Definition prefix_walk : walk :=
  while prefix_guard (walk_body 1) walk_fuel prefix_init.

(** Returns [(aa_matches, ptm_matches_1, ptm_matches_2, aa_matches.all())]. *)
Definition aa_match_prefix : list bool * list bool * list bool * bool :=
  let w := prefix_walk in
  (w_aa w, w_ptm1 w, w_ptm2 w, np_all (w_aa w)).

Definition suffix_init (aa p1 p2 : list bool) : walk :=
  MkWalk (Z.of_nat (length peptide1) - 1) (Z.of_nat (length peptide2) - 1) 0 0
         aa p1 p2.

Definition suffix_walk (aa p1 p2 : list bool) : walk :=
  while (suffix_guard (Z.of_nat (first_false aa))) (walk_body (-1)) walk_fuel
        (suffix_init aa p1 p2).

(** Returns [(aa_matches, pep_match, ptm_matches_1, ptm_matches_2)]; the
    [mode] argument is accepted and never read. *)
Definition aa_match (mode : string) : list bool * bool * list bool * list bool :=
  let '(aa_matches, ptm_matches_1, ptm_matches_2, pep_match) := aa_match_prefix in
  if pep_match then (aa_matches, pep_match, ptm_matches_1, ptm_matches_2)
  else
    let w := suffix_walk aa_matches ptm_matches_1 ptm_matches_2 in
    (w_aa w, np_all (w_aa w), w_ptm1 w, w_ptm2 w).

End Aligner.

(** ** The aligner on binary64 numbers *)

(** The same two functions with Python's floats as they are, IEEE 754
    binary64: sums are rounded, overflow to an infinity, and a difference of
    two infinities is a NaN, which compares [False] with everything. The
    properties that depend on masses staying finite are stated on this
    model. *)
Module Binary64.

Definition aa_dict_t := list (string * float).

Fixpoint dict_get (d : aa_dict_t) (k : string) (dflt : float) : float :=
  match d with
  | [] => dflt
  | (k', v) :: d' => if String.eqb k' k then v else dict_get d' k dflt
  end.

(** [spectrum_utils.utils.mass_diff]. *)
Definition mass_diff (mz1 mz2 : float) (mode_is_da : bool) : float :=
  if mode_is_da then (mz1 - mz2)%float
  else ((mz1 - mz2) / mz2 * 1000000)%float.

Record walk := MkWalk {
  w_i1 : Z;
  w_i2 : Z;
  w_cum1 : float;
  w_cum2 : float;
  w_aa : list bool;
  w_ptm1 : list bool;
  w_ptm2 : list bool
}.

Section Aligner.
Variables peptide1 peptide2 : list string.
Variable aa_dict : aa_dict_t.
Variable ptm_list : list string.
Variables cum_mass_threshold ind_mass_threshold : float.

Definition walk_body (dir : Z) (w : walk) : walk :=
  let aa_mass1 := dict_get aa_dict (tok peptide1 (w_i1 w)) 0%float in
  let aa_mass2 := dict_get aa_dict (tok peptide2 (w_i2 w)) 0%float in
  if PrimFloat.ltb
       (PrimFloat.abs (mass_diff (w_cum1 w + aa_mass1) (w_cum2 w + aa_mass2) true))
       cum_mass_threshold
  then
    let idx := Z.to_nat (Z.max (w_i1 w) (w_i2 w)) in
    let m := PrimFloat.ltb (PrimFloat.abs (mass_diff aa_mass1 aa_mass2 true))
                           ind_mass_threshold in
    MkWalk (w_i1 w + dir) (w_i2 w + dir)
           (w_cum1 w + aa_mass1) (w_cum2 w + aa_mass2)
           (<[idx := m]> (w_aa w))
           (if m then <[idx := str_in (tok peptide1 (w_i1 w)) ptm_list]> (w_ptm1 w)
            else w_ptm1 w)
           (if m then <[idx := str_in (tok peptide2 (w_i2 w)) ptm_list]> (w_ptm2 w)
            else w_ptm2 w)
  else if PrimFloat.ltb (w_cum1 w + aa_mass1) (w_cum2 w + aa_mass2)
  then MkWalk (w_i1 w + dir) (w_i2 w) (w_cum1 w + aa_mass1) (w_cum2 w)
              (w_aa w) (w_ptm1 w) (w_ptm2 w)
  else MkWalk (w_i1 w) (w_i2 w + dir) (w_cum1 w) (w_cum2 w + aa_mass2)
              (w_aa w) (w_ptm1 w) (w_ptm2 w).

Definition prefix_guard (w : walk) : bool :=
  (w_i1 w <? Z.of_nat (length peptide1)) && (w_i2 w <? Z.of_nat (length peptide2)).

Definition suffix_guard (i_stop : Z) (w : walk) : bool :=
  (i_stop <=? w_i1 w) && (i_stop <=? w_i2 w).

Fixpoint while (guard : walk -> bool) (body : walk -> walk) (fuel : nat) (w : walk)
  : walk :=
  match fuel with
  | O => w
  | S fuel' => if guard w then while guard body fuel' (body w) else w
  end.

Definition walk_fuel : nat := length peptide1 + length peptide2.

Definition prefix_init : walk :=
  let n := Nat.max (length peptide1) (length peptide2) in
  MkWalk 0 0 0%float 0%float (np_zeros n) (np_zeros n) (np_zeros n).

Definition prefix_walk : walk :=
  while prefix_guard (walk_body 1) walk_fuel prefix_init.

Definition aa_match_prefix : list bool * list bool * list bool * bool :=
  let w := prefix_walk in
  (w_aa w, w_ptm1 w, w_ptm2 w, np_all (w_aa w)).

Definition suffix_init (aa p1 p2 : list bool) : walk :=
  MkWalk (Z.of_nat (length peptide1) - 1) (Z.of_nat (length peptide2) - 1)
         0%float 0%float aa p1 p2.

Definition suffix_walk (aa p1 p2 : list bool) : walk :=
  while (suffix_guard (Z.of_nat (first_false aa))) (walk_body (-1)) walk_fuel
        (suffix_init aa p1 p2).

Definition aa_match (mode : string) : list bool * bool * list bool * list bool :=
  let '(aa_matches, ptm_matches_1, ptm_matches_2, pep_match) := aa_match_prefix in
  if pep_match then (aa_matches, pep_match, ptm_matches_1, ptm_matches_2)
  else
    let w := suffix_walk aa_matches ptm_matches_1 ptm_matches_2 in
    (w_aa w, np_all (w_aa w), w_ptm1 w, w_ptm2 w).

End Aligner.

(** The mass the aligner gives a token: its entry in the table, or zero. *)
Definition mass_of (aa_dict : aa_dict_t) (token : string) : float :=
  dict_get aa_dict token 0%float.

(** Neither an infinity nor a NaN. *)
Definition finite (x : float) : bool :=
  match Prim2SF x with
  | S754_zero _ | S754_finite _ _ _ => true
  | _ => false
  end.

(** The masses of the tokens and the running sums of these masses, from
    the sum [cum] on, are all finite. *)
Fixpoint sums_finite (aa_dict : aa_dict_t) (cum : float) (peptide : list string)
  : bool :=
  match peptide with
  | [] => true
  | token :: peptide' =>
      finite (mass_of aa_dict token)
      && finite (cum + mass_of aa_dict token)
      && sums_finite aa_dict (cum + mass_of aa_dict token)%float peptide'
  end.

(** After [k] turns on two peptides of equal masses both cursors stand at
    [k], the two running masses are the same float, the first [k] entries
    are set, and what is left to add stays finite. *)
Definition paired (aa_dict : aa_dict_t) (p : list string) (k : nat) (w : walk)
  : Prop :=
  w_i1 w = Z.of_nat k /\ w_i2 w = Z.of_nat k /\ w_cum1 w = w_cum2 w /\
  (k <= length p)%nat /\
  w_aa w = replicate k true ++ replicate (length p - k) false /\
  sums_finite aa_dict (w_cum1 w) (drop k p) = true.

End Binary64.

(** ** The tokenizer *)

Definition nonempty (k : string) : bool := negb (String.eqb k EmptyString).

(** [sorted(aa_list, key=len, reverse=True)]: a stable sort, so keys of equal
    length keep their dictionary order. *)
Fixpoint insert_by_len (k : string) (l : list string) : list string :=
  match l with
  | [] => [k]
  | x :: l' =>
      if (String.length x <=? String.length k)%nat then k :: x :: l'
      else x :: insert_by_len k l'
  end.

Definition sorted_by_len (l : list string) : list string :=
  fold_right insert_by_len [] l.

(** One attempt of the regex engine at one position: the alternatives of
    ['|'.join(map(re.escape, ...))] are literals, tried in order. *)
Definition first_match (alts : list string) (s : string) : option string :=
  find (fun k => String.prefix k s) alts.

(** ['|'.join(...)] as the list of its alternatives: joining no key at all
    gives the empty pattern, which matches the empty string. *)
Definition join_alternation (keys : list string) : list string :=
  match keys with
  | [] => [EmptyString]
  | _ => keys
  end.

(** [re.findall(pattern, s)]. [skip] counts the characters of the last match
    still to be passed over. An empty match is reported, after which the
    engine has to advance: it retries at the same position for a non-empty
    match and otherwise moves one character on. *)
Fixpoint findall (alts : list string) (s : string) (skip : nat) : list string :=
  match skip with
  | S skip' =>
      match s with
      | String _ s' => findall alts s' skip'
      | EmptyString => []
      end
  | O =>
      let move_on :=
        match s with
        | String _ s' => findall alts s' O
        | EmptyString => []
        end in
      let emit (k : string) :=
        match s with
        | String _ s' => k :: findall alts s' (String.length k - 1)
        | EmptyString => [k]
        end in
      match first_match alts s with
      | Some k =>
          if nonempty k then emit k
          else k :: match first_match (filter (fun k => nonempty k = true) alts) s with
                    | Some k' => emit k'
                    | None => move_on
                    end
      | None => move_on
      end
  end.

Inductive error :=
| ValueError_unmatched (peptide : string)   (* split_peptide *)
| ValueError_ptm (ptm : string)             (* aa_match_batch *)
| AssertionError                            (* aa_match_metrics *)
| ValueError_auc.                           (* sklearn.metrics.auc *)

Definition split_peptide (peptide : string) (aa_dict : aa_dict_t)
  : error + list string :=
  let aa_list := dict_keys aa_dict in
  let regex_pattern := join_alternation (sorted_by_len aa_list) in
  let parts := findall regex_pattern peptide O in
  let parts := filter (fun part => nonempty part = true) parts in
  if String.eqb (String.concat EmptyString parts) peptide then inr parts
  else inl (ValueError_unmatched peptide).

(** The segmentation as the specification words it: left to right, at each
    position the longest key that applies; a character no key applies to is
    left unconsumed. Returns the tokens and the unconsumed characters. *)
Fixpoint longest_key (keys : list string) (s : string) : option string :=
  match keys with
  | [] => None
  | k :: keys' =>
      let r := longest_key keys' s in
      if nonempty k && String.prefix k s then
        match r with
        | Some k' => if (String.length k' <=? String.length k)%nat then Some k else r
        | None => Some k
        end
      else r
  end.

Fixpoint greedy_segment (keys : list string) (s : string) (skip : nat)
  : list string * list ascii :=
  match s with
  | EmptyString => ([], [])
  | String c s' =>
      match skip with
      | S skip' => greedy_segment keys s' skip'
      | O =>
          match longest_key keys s with
          | Some k =>
              let '(toks, rest) := greedy_segment keys s' (String.length k - 1) in
              (k :: toks, rest)
          | None =>
              let '(toks, rest) := greedy_segment keys s' O in
              (toks, c :: rest)
          end
      end
  end.

(** ** The batch evaluator *)

(** A peptide is handed over as a raw string or already tokenized
    ([isinstance(peptide, str)]). *)
Inductive peptide_in :=
| PepStr (s : string)
| PepList (l : list string).

(** What the evaluator calls, in order. *)
Inductive call :=
| CallSplit (peptide : string)
| CallAaMatch (peptide1 peptide2 : list string).

(** A computation that logs its calls and may raise. *)
Definition M (A : Type) : Type := list call -> list call * (error + A).

Definition ret {A} (a : A) : M A := fun log => (log, inr a).
Definition raise {A} (e : error) : M A := fun log => (log, inl e).
Definition bind {A B} (m : M A) (k : A -> M B) : M B :=
  fun log =>
    match m log with
    | (log', inr a) => k a log'
    | (log', inl e) => (log', inl e)
    end.
Definition logged {A} (c : call) (m : M A) : M A := fun log => m (log ++ [c]).
Definition run {A} (m : M A) : list call * (error + A) := m [].

Notation "'let!' x ':=' m 'in' k" := (bind m (fun x => k))
  (at level 10, x name, m at level 100, k at level 200).

Definition verdict : Type := list bool * bool * list bool * list bool.

Record tally := MkTally {
  aa_matches_batch : list verdict;
  n_aa1 : nat;
  n_aa2 : nat;
  n_ptm_1 : nat;
  n_ptm_2 : nat
}.

Section Batch.
Variable aa_dict : aa_dict_t.
Variable ptm_list : list string.
Variables cum_mass_threshold ind_mass_threshold : Q.
Variable mode : string.

(** [for ptm in ptm_list: if ptm not in aa_dict.keys(): raise ValueError] *)
Fixpoint check_ptm (ptms : list string) : M unit :=
  match ptms with
  | [] => ret tt
  | ptm :: ptms' =>
      if str_in ptm (dict_keys aa_dict) then check_ptm ptms'
      else raise (ValueError_ptm ptm)
  end.

Definition tokenize (p : peptide_in) : M (list string) :=
  match p with
  | PepStr s =>
      logged (CallSplit s)
        (match split_peptide s aa_dict with
         | inr parts => ret parts
         | inl e => raise e
         end)
  | PepList l => ret l
  end.

(** [sum(1 if aa in ptm_list else 0 for aa in peptide)] *)
Definition ptm_count (peptide : list string) : nat :=
  list_sum (map (fun aa => if str_in aa ptm_list then 1%nat else 0%nat) peptide).

(** One turn of the [for] loop over the zipped pairs. *)
Definition batch_step (t : tally) (pair : peptide_in * peptide_in) : M tally :=
  let! peptide1 := tokenize (fst pair) in
  let! peptide2 := tokenize (snd pair) in
  let n1 := (n_aa1 t + length peptide1)%nat in
  let n2 := (n_aa2 t + length peptide2)%nat in
  let m1 := (n_ptm_1 t + ptm_count peptide1)%nat in
  let m2 := (n_ptm_2 t + ptm_count peptide2)%nat in
  if (length peptide2 =? 0)%nat then
    ret (MkTally (aa_matches_batch t ++
                    [(np_zeros (length peptide1), false,
                      np_zeros (length peptide1), np_zeros (length peptide1))])
                 n1 n2 m1 m2)
  else
    let! v := logged (CallAaMatch peptide1 peptide2)
                (ret (aa_match peptide1 peptide2 aa_dict ptm_list
                               cum_mass_threshold ind_mass_threshold mode)) in
    ret (MkTally (aa_matches_batch t ++ [v]) n1 n2 m1 m2).

Fixpoint batch_loop (pairs : list (peptide_in * peptide_in)) (t : tally) : M tally :=
  match pairs with
  | [] => ret t
  | pr :: pairs' => let! t' := batch_step t pr in batch_loop pairs' t'
  end.

Definition aa_match_batch (peptides1 peptides2 : list peptide_in) : M tally :=
  let! checked := check_ptm ptm_list in
  batch_loop (combine peptides1 peptides2) (MkTally [] 0 0 0 0).

End Batch.

(** ** The metric aggregator *)

Definition Qnat (n : nat) : Q := inject_Z (Z.of_nat n).

(** The guard [1e-8] added to every denominator. *)
Definition eps : Q := 1 # 100000000.

(** [sorted(combined, key=lambda x: x[0], reverse=True)]: stable, by
    descending score. *)
Fixpoint insert_by_score (x : Q * bool) (l : list (Q * bool)) : list (Q * bool) :=
  match l with
  | [] => [x]
  | y :: l' =>
      if Qle_bool (fst y) (fst x) then x :: y :: l'
      else y :: insert_by_score x l'
  end.

Definition sorted_by_score (l : list (Q * bool)) : list (Q * bool) :=
  fold_right insert_by_score [] l.

(** [np.cumsum] of a boolean list, from a running count [acc]. *)
Fixpoint cumsum_from (acc : nat) (l : list bool) : list nat :=
  match l with
  | [] => []
  | b :: l' =>
      let acc' := (acc + if b then 1 else 0)%nat in
      acc' :: cumsum_from acc' l'
  end.

Definition np_cumsum (l : list bool) : list nat := cumsum_from 0 l.

(** [np.trapz(y, x)] *)
Fixpoint np_trapz (y x : list Q) : Q :=
  match x, y with
  | x0 :: ((x1 :: _) as x'), y0 :: ((y1 :: _) as y') =>
      ((x1 - x0) * (y1 + y0) / 2 + np_trapz y' x')%Q
  | _, _ => 0%Q
  end.

(** [np.diff] *)
Fixpoint np_diff (x : list Q) : list Q :=
  match x with
  | x0 :: ((x1 :: _) as x') => (x1 - x0)%Q :: np_diff x'
  | _ => []
  end.

(** [sklearn.metrics.auc(x, y)] *)
Definition auc (x y : list Q) : error + Q :=
  if (length x <? 2)%nat then inl ValueError_auc
  else
    let dx := np_diff x in
    if existsb (fun d => Qltb d 0) dx then
      if forallb (fun d => Qle_bool d 0) dx then inr (- np_trapz y x)%Q
      else inl ValueError_auc
    else inr (np_trapz y x).

Record metrics := MkMetrics {
  aa_precision : Q;
  aa_recall : Q;
  pep_precision : Q;
  ptm_recall : Q;
  ptm_precision : Q;
  curve_auc : Q
}.

Definition sum_of (f : verdict -> nat) (batch : list verdict) : nat :=
  list_sum (map f batch).

Definition v_aa (v : verdict) : list bool := fst (fst (fst v)).
Definition v_pep (v : verdict) : bool := snd (fst (fst v)).
Definition v_ptm1 (v : verdict) : list bool := snd (fst v).
Definition v_ptm2 (v : verdict) : list bool := snd v.

(** The four counts are Python ints, whatever the caller passes; the batch
    evaluator passes sums of lengths. *)
Definition aa_match_metrics (batch : list verdict)
    (n_aa_true n_aa_pred n_ptm_true n_ptm_pred : Z) (scores : list Q)
  : error + metrics :=
  let n_aa_correct := sum_of (fun v => np_sum (v_aa v)) batch in
  let aa_precision := (Qnat n_aa_correct / (inject_Z n_aa_pred + eps))%Q in
  let aa_recall := (Qnat n_aa_correct / (inject_Z n_aa_true + eps))%Q in
  let pep_precision :=
    (Qnat (sum_of (fun v => if v_pep v then 1%nat else 0%nat) batch)
     / (Qnat (length batch) + eps))%Q in
  let ptm_recall :=
    (Qnat (sum_of (fun v => np_sum (v_ptm1 v)) batch)
     / (inject_Z n_ptm_true + eps))%Q in
  let ptm_precision :=
    (Qnat (sum_of (fun v => np_sum (v_ptm2 v)) batch)
     / (inject_Z n_ptm_pred + eps))%Q in
  let pep_match_bool_list := map v_pep batch in
  if negb (length scores =? length pep_match_bool_list)%nat then inl AssertionError
  else
    let combined := combine scores pep_match_bool_list in
    let sorted_combined := sorted_by_score combined in
    let sorted_pred_bools := map snd sorted_combined in
    let n := length sorted_pred_bools in
    let cs := np_cumsum sorted_pred_bools in
    let precision :=
      map (fun '(c, k) => (Qnat c / Qnat k)%Q) (combine cs (seq 1 n)) in
    let recall := map (fun c => (Qnat c / Qnat n)%Q) cs in
    match auc recall precision with
    | inl e => inl e
    | inr curve_auc =>
        inr (MkMetrics aa_precision aa_recall pep_precision
                       ptm_recall ptm_precision curve_auc)
    end.

(** ** Precision and recall at a score threshold *)

Inductive arith_error := ZeroDivisionError.

(** What a true division returns: a number, or the [inf] and [nan] that
    numpy gives for a division by zero. *)
Inductive quotient :=
| Quot (q : Q)
| QuotInf
| QuotNaN.

(** [sum([score > threshold for score in scores])] *)
Definition count_above (threshold : Q) (scores : list Q) : nat :=
  length (filter (fun score => Qltb threshold score = true) scores).

(** Whether that sum is a numpy integer. The flag tells that the comparisons
    on the list give numpy booleans, as they do when the threshold or a score
    of the list is an [np.float64] (a subclass of [float]); Python's [sum],
    which starts from the int [0], then returns a numpy integer as soon as
    the list is not empty. *)
Definition sum_is_numpy (numpy : bool) (scores : list Q) : bool :=
  numpy && (0 <? length scores)%nat.

(** [a / b] for a count [a] and an int [b]. Between two Python ints a zero
    divisor raises; when either operand is a numpy integer the division is
    numpy's, which warns and returns [nan] for [0 / 0] and [inf] for a
    positive count over zero. A Python int beyond 64 bits divides a numpy
    integer as the number it is, which is what NumPy 1 does; NumPy 2 refuses
    such an int, a case the statement on raising leaves out
    ([fits_int64]). *)
Definition true_divide (a : nat) (a_numpy : bool) (b : Z) (b_numpy : bool)
  : arith_error + quotient :=
  if a_numpy || b_numpy then
    if (b =? 0)%Z then inr (if (a =? 0)%nat then QuotNaN else QuotInf)
    else inr (Quot (Qnat a / inject_Z b))
  else if (b =? 0)%Z then inl ZeroDivisionError
  else inr (Quot (Qnat a / inject_Z b)).

(** [correct_numpy] and [all_numpy] tell, for each of the two lists, whether
    its comparisons give numpy booleans. [n_aa_total] is a Python int. The
    precision is computed first, so its division is the first that can
    raise. *)
Definition aa_precision_recall (correct_numpy all_numpy : bool)
    (aa_scores_correct aa_scores_all : list Q)
    (n_aa_total : Z) (threshold : Q) : arith_error + (quotient * quotient) :=
  let n_aa_correct := count_above threshold aa_scores_correct in
  let n_aa_predicted := count_above threshold aa_scores_all in
  let correct_is_numpy := sum_is_numpy correct_numpy aa_scores_correct in
  let predicted_is_numpy := sum_is_numpy all_numpy aa_scores_all in
  match true_divide n_aa_correct correct_is_numpy
                    (Z.of_nat n_aa_predicted) predicted_is_numpy with
  | inl e => inl e
  | inr precision =>
      match true_divide n_aa_correct correct_is_numpy n_aa_total false with
      | inl e => inl e
      | inr recall => inr (precision, recall)
      end
  end.

(** The aggregator applied to the five results of the evaluator and a list
    of scores. *)
Definition batch_metrics (aa_dict : aa_dict_t) (ptm_list : list string)
    (cum_mass_threshold ind_mass_threshold : Q) (mode : string)
    (peptides1 peptides2 : list peptide_in) (scores : list Q) : error + metrics :=
  match snd (run (aa_match_batch aa_dict ptm_list cum_mass_threshold
                                 ind_mass_threshold mode peptides1 peptides2)) with
  | inl e => inl e
  | inr t =>
      aa_match_metrics (aa_matches_batch t)
                       (Z.of_nat (n_aa1 t)) (Z.of_nat (n_aa2 t))
                       (Z.of_nat (n_ptm_1 t)) (Z.of_nat (n_ptm_2 t)) scores
  end.

(** ** Notions used in the statements *)

(** What the prefix walk still has to read, and the suffix walk. *)
Definition prefix_left (peptide1 peptide2 : list string) (w : walk) : nat :=
  (Z.to_nat (Z.of_nat (length peptide1) - w_i1 w)
   + Z.to_nat (Z.of_nat (length peptide2) - w_i2 w))%nat.

Definition suffix_left (w : walk) : nat :=
  (Z.to_nat (w_i1 w + 1) + Z.to_nat (w_i2 w + 1))%nat.

(** The states a loop passes through. *)
Inductive reached (guard : walk -> bool) (body : walk -> walk) (w0 : walk)
  : walk -> Prop :=
| reached_start : reached guard body w0 w0
| reached_turn (w : walk) :
    reached guard body w0 w -> guard w = true -> reached guard body w0 (body w).

(** Both tokens read in a turn exist, and the position written exists. *)
Definition turn_in_range (peptide1 peptide2 : list string) (w : walk) : Prop :=
  is_Some (peptide1 !! Z.to_nat (w_i1 w)) /\ 0 <= w_i1 w /\
  is_Some (peptide2 !! Z.to_nat (w_i2 w)) /\ 0 <= w_i2 w /\
  (Z.to_nat (Z.max (w_i1 w) (w_i2 w)) < length (w_aa w))%nat.

Definition arrays_sized (peptide1 peptide2 : list string) (w : walk) : Prop :=
  length (w_aa w) = Nat.max (length peptide1) (length peptide2).

(** The two sides exchanged. *)
Definition swap_walk (w : walk) : walk :=
  MkWalk (w_i2 w) (w_i1 w) (w_cum2 w) (w_cum1 w) (w_aa w) (w_ptm2 w) (w_ptm1 w).

Definition swap_verdict (v : verdict) : verdict :=
  (v_aa v, v_pep v, v_ptm2 v, v_ptm1 v).

(** The three arrays of a walk are the given ones. *)
Definition same_arrays (aa m1 m2 : list bool) (w : walk) : Prop :=
  w_aa w = aa /\ w_ptm1 w = m1 /\ w_ptm2 w = m2.

(** Entry by entry, what is set on the left is set on the right. *)
Definition below (a a' : list bool) : Prop :=
  Forall2 (fun b b' : bool => b = true -> b' = true) a a'.

Definition same_cursor (w w' : walk) : Prop :=
  w_i1 w = w_i1 w' /\ w_i2 w = w_i2 w' /\
  w_cum1 w = w_cum1 w' /\ w_cum2 w = w_cum2 w' /\
  below (w_aa w) (w_aa w').

(** The match array of the prefix walk. *)
Definition prefix_aa (peptide1 peptide2 : list string) (aa_dict : aa_dict_t)
    (ptm_list : list string) (cum_tol ind_tol : Q) : list bool :=
  fst (fst (fst (aa_match_prefix peptide1 peptide2 aa_dict ptm_list cum_tol ind_tol))).

(** The first configured PTM token that is not a key of the table. *)
Definition first_missing (aa_dict : aa_dict_t) (ptms : list string)
  : option string :=
  find (fun ptm => negb (str_in ptm (dict_keys aa_dict))) ptms.

(** Every call of the aligner recorded in a log is on a non-empty
    prediction. *)
Definition aligned_nonempty (log : list call) : Prop :=
  forall peptide1 peptide2,
    In (CallAaMatch peptide1 peptide2) log -> peptide2 <> [].

(** A string without its first [n] characters. *)
Fixpoint string_drop (n : nat) (s : string) : string :=
  match n, s with
  | O, _ => s
  | S n', String _ s' => string_drop n' s'
  | S _, EmptyString => EmptyString
  end.

(** A key applies at a position when it is not empty and starts the rest
    of the input. *)
Definition applies (s : string) (k : string) : bool :=
  nonempty k && String.prefix k s.

Definition by_len_desc (a b : string) : Prop :=
  (String.length b <= String.length a)%nat.

Definition unit_interval (q : Q) : Prop := (0 <= q <= 1)%Q.

(** All three arrays of a walk have [n] entries. *)
Definition all_sized (n : nat) (w : walk) : Prop :=
  length (w_aa w) = n /\ length (w_ptm1 w) = n /\ length (w_ptm2 w) = n.

(** No entry of [a] from position [j] on is set. *)
Definition clear_from (j : nat) (a : list bool) : Prop :=
  forall i, (j <= i)%nat -> a !! i <> Some true.

(** Wherever [a] is set, [b] is set. *)
Definition implies_at (a b : list bool) : Prop :=
  forall i, a !! i = Some true -> b !! i = Some true.

(** What the prefix walk keeps true from turn to turn: the cursors stay
    within the peptides, nothing is set at or beyond the larger cursor, and
    the numbers of set entries are bounded by the tokens read so far. *)
Definition prefix_inv (peptide1 peptide2 ptm_list : list string) (w : walk)
  : Prop :=
  (0 <= w_i1 w <= Z.of_nat (length peptide1)) /\
  (0 <= w_i2 w <= Z.of_nat (length peptide2)) /\
  all_sized (Nat.max (length peptide1) (length peptide2)) w /\
  clear_from (Z.to_nat (Z.max (w_i1 w) (w_i2 w))) (w_aa w) /\
  clear_from (Z.to_nat (Z.max (w_i1 w) (w_i2 w))) (w_ptm1 w) /\
  clear_from (Z.to_nat (Z.max (w_i1 w) (w_i2 w))) (w_ptm2 w) /\
  (np_sum (w_aa w) <= Z.to_nat (Z.min (w_i1 w) (w_i2 w)))%nat /\
  (np_sum (w_ptm1 w)
   <= ptm_count ptm_list (take (Z.to_nat (w_i1 w)) peptide1))%nat /\
  (np_sum (w_ptm2 w)
   <= ptm_count ptm_list (take (Z.to_nat (w_i2 w)) peptide2))%nat /\
  implies_at (w_ptm1 w) (w_aa w) /\ implies_at (w_ptm2 w) (w_aa w).

(** The tokens of a peptide as the evaluator obtains them. *)
Definition tokens_of (aa_dict : aa_dict_t) (p : peptide_in) : error + list string :=
  match p with
  | PepStr s => split_peptide s aa_dict
  | PepList l => inr l
  end.

(** The verdict the evaluator records for a pair of tokenized peptides. *)
Definition pair_verdict (aa_dict : aa_dict_t) (ptm_list : list string)
    (cum_tol ind_tol : Q) (mode : string) (pr : list string * list string)
  : verdict :=
  if (length (snd pr) =? 0)%nat then
    (np_zeros (length (fst pr)), false,
     np_zeros (length (fst pr)), np_zeros (length (fst pr)))
  else aa_match (fst pr) (snd pr) aa_dict ptm_list cum_tol ind_tol mode.

(** The tally of a list of tokenized pairs: their verdicts in order, and the
    four totals. *)
Definition tally_of (aa_dict : aa_dict_t) (ptm_list : list string)
    (cum_tol ind_tol : Q) (mode : string)
    (pairs : list (list string * list string)) : tally :=
  MkTally (map (pair_verdict aa_dict ptm_list cum_tol ind_tol mode) pairs)
          (list_sum (map (fun pr => length (fst pr)) pairs))
          (list_sum (map (fun pr => length (snd pr)) pairs))
          (list_sum (map (fun pr => ptm_count ptm_list (fst pr)) pairs))
          (list_sum (map (fun pr => ptm_count ptm_list (snd pr)) pairs)).

(** Two tallies merged: the verdicts of the first, then those of the second,
    and the counts added. *)
Definition tally_add (t t' : tally) : tally :=
  MkTally (aa_matches_batch t ++ aa_matches_batch t')
          (n_aa1 t + n_aa1 t') (n_aa2 t + n_aa2 t')
          (n_ptm_1 t + n_ptm_1 t') (n_ptm_2 t + n_ptm_2 t').

(** An outcome of the evaluator seen from a log and a tally already there. *)
Definition shift (log : list call) (t : tally) (r : list call * (error + tally))
  : list call * (error + tally) :=
  (log ++ fst r,
   match snd r with
   | inr t' => inr (tally_add t t')
   | inl e => inl e
   end).

(** The arrays of a walk agree with given arrays below position [s]. *)
Definition kept_below (s : nat) (aa m1 m2 : list bool) (w : walk) : Prop :=
  forall j, (j < s)%nat ->
    w_aa w !! j = aa !! j /\ w_ptm1 w !! j = m1 !! j /\ w_ptm2 w !! j = m2 !! j.

(** No score of the list lies strictly above the threshold. *)
Definition none_above (threshold : Q) (scores : list Q) : Prop :=
  List.Forall (fun score => ~ (threshold < score)%Q) scores.

(** An int that fits numpy's 64-bit integers. *)
Definition fits_int64 (n : Z) : Prop := - 2 ^ 63 <= n < 2 ^ 63.

(** ** Tables used in the worked examples *)

Definition demo_table : aa_dict_t :=
  [ ("G"%string, 57021464 # 1000000); ("A"%string, 71037114 # 1000000);
    ("N"%string, 114042927 # 1000000); ("K"%string, 128094963 # 1000000);
    ("Q"%string, 128058578 # 1000000); ("M"%string, 131040485 # 1000000);
    ("M(+15.99)"%string, 147035400 # 1000000) ]%Q.

Definition scenario_table : aa_dict_t :=
  [ ("A"%string, 71 # 1); ("B"%string, 114 # 1); ("C"%string, 103 # 1) ]%Q.

(** Tables of binary64 masses. The decimal literals are rounded to the
    nearest binary64 number, as Python rounds them. *)
#[local] Set Warnings "-inexact-float".

Definition demo_floats : Binary64.aa_dict_t :=
  [ ("G"%string, 57.021464%float); ("A"%string, 71.037114%float);
    ("N"%string, 114.042927%float); ("M"%string, 131.040485%float);
    ("M(+15.99)"%string, 147.035400%float) ].

Definition isobaric_floats : Binary64.aa_dict_t :=
  [ ("G"%string, 57.021464%float); ("I"%string, 113.084064%float);
    ("L"%string, 113.084064%float) ].

Definition huge_floats : Binary64.aa_dict_t := [ ("A"%string, 1e308%float) ].

Definition infinite_floats : Binary64.aa_dict_t := [ ("A"%string, infinity) ].

Definition small_table : aa_dict_t :=
  [ ("U"%string, 5 # 100); ("V"%string, 3 # 10) ]%Q.

(** * Properties *)

(** ** Comparisons on rationals *)

Lemma Qltb_lt (x y : Q) : Qltb x y = true <-> (x < y)%Q.
Proof.
  unfold Qltb. rewrite negb_true_iff.
  destruct (Qle_bool y x) eqn:E.
  - apply Qle_bool_iff in E. split; [discriminate | intros H; lra].
  - split; [intros _ | reflexivity].
    apply Qnot_le_lt. intros H. apply Qle_bool_iff in H. congruence.
Qed.

Lemma Qltb_ge (x y : Q) : Qltb x y = false <-> (y <= x)%Q.
Proof.
  unfold Qltb. rewrite negb_false_iff. apply Qle_bool_iff.
Qed.

Lemma Qltb_abs_nonpos (x t : Q) : (t <= 0)%Q -> Qltb (Qabs x) t = false.
Proof.
  intros Ht. apply Qltb_ge.
  pose proof (Qabs_nonneg x). lra.
Qed.

Lemma Qltb_mono (x t t' : Q) : (t <= t')%Q -> Qltb x t = true -> Qltb x t' = true.
Proof.
  rewrite !Qltb_lt. intros; lra.
Qed.

(** Outside the cumulative tolerance, and when that tolerance is positive,
    exactly one side is behind. *)
Lemma Qltb_trichotomy (x y t : Q) :
  (0 < t)%Q -> Qltb (Qabs (x - y)) t = false -> Qltb y x = negb (Qltb x y).
Proof.
  intros Ht H. apply Qltb_ge in H.
  destruct (Qltb x y) eqn:E; simpl.
  - apply Qltb_lt in E. apply Qltb_ge. lra.
  - apply Qltb_ge in E. apply Qltb_lt.
    destruct (Qlt_le_dec y x) as [L | L]; [exact L | exfalso].
    assert (E0 : (x - y == 0)%Q) by lra.
    assert (E1 : (Qabs (x - y) == 0)%Q) by (rewrite E0; reflexivity).
    lra.
Qed.

(** ** Loops *)

Section WhileFacts.
Variables (guard1 guard2 : walk -> bool) (body1 body2 : walk -> walk).

(** A measure that every turn decreases bounds the number of turns: with
    that much fuel the loop has left through its guard. *)
Lemma while_done (mu : walk -> nat) :
  (forall w, guard1 w = true -> (mu (body1 w) < mu w)%nat) ->
  forall fuel w, (mu w <= fuel)%nat ->
    guard1 (while guard1 body1 fuel w) = false.
Proof.
  intros Hdec fuel. induction fuel as [| fuel IH]; intros w Hw; simpl.
  - destruct (guard1 w) eqn:G; [| reflexivity].
    specialize (Hdec w G). lia.
  - destruct (guard1 w) eqn:G; [| exact G].
    apply IH. specialize (Hdec w G). lia.
Qed.

Lemma while_inv (P : walk -> Prop) :
  (forall w, guard1 w = true -> P w -> P (body1 w)) ->
  forall fuel w, P w -> P (while guard1 body1 fuel w).
Proof.
  intros Hstep fuel. induction fuel as [| fuel IH]; intros w Hw; simpl.
  - exact Hw.
  - destruct (guard1 w) eqn:G; [| exact Hw]. apply IH, Hstep; assumption.
Qed.

(** Two loops that step in lockstep stay related. *)
Lemma while_rel (R : walk -> walk -> Prop) :
  (forall w w', R w w' -> guard1 w = guard2 w') ->
  (forall w w', R w w' -> guard1 w = true -> R (body1 w) (body2 w')) ->
  forall fuel w w', R w w' ->
    R (while guard1 body1 fuel w) (while guard2 body2 fuel w').
Proof.
  intros Hg Hb fuel. induction fuel as [| fuel IH]; intros w w' Hw; simpl.
  - exact Hw.
  - rewrite <- (Hg _ _ Hw). destruct (guard1 w) eqn:G; [| exact Hw].
    apply IH, Hb; assumption.
Qed.
End WhileFacts.

(** ** Termination of the two walks *)

Section Termination.
Variables peptide1 peptide2 : list string.
Variable aa_dict : aa_dict_t.
Variable ptm_list : list string.
Variables cum_mass_threshold ind_mass_threshold : Q.

Local Abbreviation body := (walk_body peptide1 peptide2 aa_dict ptm_list
                                  cum_mass_threshold ind_mass_threshold).

Lemma prefix_left_decreases (w : walk) :
  prefix_guard peptide1 peptide2 w = true ->
  (prefix_left peptide1 peptide2 (body 1 w) < prefix_left peptide1 peptide2 w)%nat.
Proof.
  unfold prefix_guard, prefix_left, walk_body. intros G.
  apply andb_true_iff in G as [G1 G2].
  apply Z.ltb_lt in G1, G2.
  repeat match goal with |- context [if ?b then _ else _] => destruct b end;
    simpl; lia.
Qed.

Lemma suffix_left_decreases (i_stop : Z) (w : walk) :
  0 <= i_stop ->
  suffix_guard i_stop w = true ->
  (suffix_left (body (-1) w) < suffix_left w)%nat.
Proof.
  unfold suffix_guard, suffix_left, walk_body. intros Hs G.
  apply andb_true_iff in G as [G1 G2].
  apply Z.leb_le in G1, G2.
  repeat match goal with |- context [if ?b then _ else _] => destruct b end;
    simpl; lia.
Qed.

(** The prefix walk leaves its [while] loop. *)
Lemma prefix_walk_terminates :
  prefix_guard peptide1 peptide2
    (prefix_walk peptide1 peptide2 aa_dict ptm_list
                 cum_mass_threshold ind_mass_threshold) = false.
Proof.
  unfold prefix_walk.
  apply (while_done _ _ (prefix_left peptide1 peptide2));
  [apply prefix_left_decreases |].
  unfold prefix_left, prefix_init, walk_fuel; simpl. lia.
Qed.

(** The suffix walk leaves its [while] loop. *)
Lemma suffix_walk_terminates (aa p1 p2 : list bool) :
  suffix_guard (Z.of_nat (first_false aa))
    (suffix_walk peptide1 peptide2 aa_dict ptm_list
                 cum_mass_threshold ind_mass_threshold aa p1 p2) = false.
Proof.
  unfold suffix_walk.
  apply (while_done _ _ suffix_left).
  - intros w. apply suffix_left_decreases. lia.
  - unfold suffix_left, suffix_init, walk_fuel; simpl. lia.
Qed.
End Termination.

(** ** The scenarios of the specification *)

Example scenario_identity :
  aa_match ["A"; "B"; "C"]%string ["A"; "B"; "C"]%string scenario_table []
           (1 # 2) (1 # 10) "best"
  = ([true; true; true], true, [false; false; false], [false; false; false]).
Proof. vm_compute. reflexivity. Qed.

Example scenario_ptm :
  aa_match ["M(+15.99)"; "A"]%string ["M(+15.99)"; "A"]%string demo_table
           ["M(+15.99)"%string] (1 # 2) (1 # 10) "best"
  = ([true; true], true, [true; false], [true; false]).
Proof. vm_compute. reflexivity. Qed.

Example scenario_tokenizer :
  split_peptide "GAM(+15.99)MN" demo_table
  = inr ["G"; "A"; "M(+15.99)"; "M"; "N"]%string /\
  split_peptide "GAXN" demo_table = inl (ValueError_unmatched "GAXN").
Proof. split; vm_compute; reflexivity. Qed.

(** ** Indexing stays in range *)

Lemma while_reached (guard : walk -> bool) (body : walk -> walk) (fuel : nat)
    (w0 : walk) :
  reached guard body w0 (while guard body fuel w0).
Proof.
  assert (G : forall w, reached guard body w0 w ->
                        reached guard body w0 (while guard body fuel w)).
  { induction fuel as [| fuel IH]; intros w Hw; simpl; [exact Hw |].
    destruct (guard w) eqn:E; [| exact Hw].
    apply IH. constructor; assumption. }
  apply G. constructor.
Qed.

Lemma np_all_false_first (a : list bool) :
  np_all a = false -> (first_false a < length a)%nat.
Proof.
  induction a as [| b a IH]; simpl; [discriminate |].
  destruct b; simpl; [intros H; specialize (IH H) |]; lia.
Qed.

Section Safety.
Variables peptide1 peptide2 : list string.
Variable aa_dict : aa_dict_t.
Variable ptm_list : list string.
Variables cum_mass_threshold ind_mass_threshold : Q.

Local Abbreviation body := (walk_body peptide1 peptide2 aa_dict ptm_list
                                      cum_mass_threshold ind_mass_threshold).

Lemma walk_body_sized (dir : Z) (w : walk) :
  arrays_sized peptide1 peptide2 w -> arrays_sized peptide1 peptide2 (body dir w).
Proof.
  unfold arrays_sized, walk_body. intros H.
  repeat match goal with |- context [if ?b then _ else _] => destruct b end;
    cbn [w_aa]; rewrite ?length_insert; exact H.
Qed.

Lemma walk_body_cursors (dir : Z) (w : walk) :
  (w_i1 (body dir w) = w_i1 w \/ w_i1 (body dir w) = w_i1 w + dir) /\
  (w_i2 (body dir w) = w_i2 w \/ w_i2 (body dir w) = w_i2 w + dir).
Proof.
  unfold walk_body.
  repeat match goal with |- context [if ?b then _ else _] => destruct b end;
    cbn [w_i1 w_i2]; auto.
Qed.

Lemma prefix_reached_inv (w : walk) :
  reached (prefix_guard peptide1 peptide2) (body 1)
          (prefix_init peptide1 peptide2) w ->
  0 <= w_i1 w /\ 0 <= w_i2 w /\ arrays_sized peptide1 peptide2 w.
Proof.
  induction 1 as [| w Hw (I1 & I2 & Hs) G].
  - unfold arrays_sized, prefix_init, np_zeros; simpl.
    rewrite length_replicate. repeat split; lia.
  - destruct (walk_body_cursors 1 w) as [C1 C2].
    repeat split; [lia | lia | apply walk_body_sized, Hs].
Qed.

(** In every turn of the prefix walk. *)
Lemma prefix_turn_in_range (w : walk) :
  reached (prefix_guard peptide1 peptide2) (body 1)
          (prefix_init peptide1 peptide2) w ->
  prefix_guard peptide1 peptide2 w = true -> turn_in_range peptide1 peptide2 w.
Proof.
  intros Hw G. destruct (prefix_reached_inv w Hw) as (I1 & I2 & Hs).
  unfold prefix_guard in G. apply andb_true_iff in G as [G1 G2].
  apply Z.ltb_lt in G1, G2. unfold turn_in_range. rewrite Hs.
  repeat split; try assumption; try (apply lookup_lt_is_Some; lia); lia.
Qed.

Lemma suffix_reached_inv (aa p1 p2 : list bool) (w : walk) :
  length aa = Nat.max (length peptide1) (length peptide2) ->
  reached (suffix_guard (Z.of_nat (first_false aa))) (body (-1))
          (suffix_init peptide1 peptide2 aa p1 p2) w ->
  w_i1 w < Z.of_nat (length peptide1) /\ w_i2 w < Z.of_nat (length peptide2) /\
  arrays_sized peptide1 peptide2 w.
Proof.
  intros Ha. induction 1 as [| w Hw (I1 & I2 & Hs) G].
  - unfold arrays_sized, suffix_init; simpl. repeat split; try lia; exact Ha.
  - destruct (walk_body_cursors (-1) w) as [C1 C2].
    repeat split; [lia | lia | apply walk_body_sized, Hs].
Qed.

(** In every turn of the suffix walk. *)
Lemma suffix_turn_in_range (aa p1 p2 : list bool) (w : walk) :
  length aa = Nat.max (length peptide1) (length peptide2) ->
  reached (suffix_guard (Z.of_nat (first_false aa))) (body (-1))
          (suffix_init peptide1 peptide2 aa p1 p2) w ->
  suffix_guard (Z.of_nat (first_false aa)) w = true ->
  turn_in_range peptide1 peptide2 w.
Proof.
  intros Ha Hw G. destruct (suffix_reached_inv aa p1 p2 w Ha Hw) as (I1 & I2 & Hs).
  unfold suffix_guard in G. apply andb_true_iff in G as [G1 G2].
  apply Z.leb_le in G1, G2. unfold turn_in_range. rewrite Hs.
  repeat split; try lia; apply lookup_lt_is_Some; lia.
Qed.
End Safety.

(** ** Equal masses, on binary64 numbers *)

Lemma np_all_replicate_true (n : nat) : np_all (replicate n true) = true.
Proof. induction n; simpl; auto. Qed.

Lemma Forall2_tok {R : string -> string -> Prop} (p1 p2 : list string) (k : nat) :
  Forall2 R p1 p2 -> (k < length p1)%nat ->
  R (tok p1 (Z.of_nat k)) (tok p2 (Z.of_nat k)).
Proof.
  intros F Hk. unfold tok. rewrite Nat2Z.id.
  apply lookup_lt_is_Some in Hk as [a Ha].
  destruct (Forall2_lookup_l _ _ _ _ _ F Ha) as (b & Hb & Hab).
  rewrite Ha, Hb. exact Hab.
Qed.

(** A finite number minus itself is the positive zero; an infinity minus
    itself is a NaN. *)
Lemma SF64sub_diag (x : spec_float) :
  match x with S754_zero _ | S754_finite _ _ _ => true | _ => false end = true ->
  SF64sub x x = S754_zero false.
Proof.
  destruct x as [s | s | | s m e]; try discriminate; intros _.
  - destruct s; reflexivity.
  - unfold SF64sub, SFsub. cbv zeta. rewrite Z.sub_diag. reflexivity.
Qed.

Lemma ltb_abs_sub_diag (x t : float) :
  Binary64.finite x = true -> PrimFloat.ltb 0 t = true ->
  PrimFloat.ltb (PrimFloat.abs (x - x)) t = true.
Proof.
  intros F T. rewrite ltb_spec in *. rewrite abs_spec, sub_spec.
  rewrite (SF64sub_diag _ F). exact T.
Qed.

Section EqualMasses.
Variables peptide1 peptide2 : list string.
Variable aa_dict : Binary64.aa_dict_t.
Variable ptm_list : list string.
Variables cum_mass_threshold ind_mass_threshold : float.
Hypothesis cum_pos : PrimFloat.ltb 0 cum_mass_threshold = true.
Hypothesis ind_pos : PrimFloat.ltb 0 ind_mass_threshold = true.
Hypothesis same_masses :
  Forall2 (fun a b => Binary64.mass_of aa_dict a = Binary64.mass_of aa_dict b)
          peptide1 peptide2.

Local Abbreviation body :=
  (Binary64.walk_body peptide1 peptide2 aa_dict ptm_list
                      cum_mass_threshold ind_mass_threshold 1).

Lemma paired_body (k : nat) (w : Binary64.walk) :
  (k < length peptide1)%nat ->
  Binary64.paired aa_dict peptide1 k w ->
  Binary64.paired aa_dict peptide1 (S k) (body w).
Proof.
  intros Hk (H1 & H2 & Hc & _ & Ha & Hf).
  pose proof (Forall2_tok _ _ k same_masses Hk) as Hm.
  destruct (lookup_lt_is_Some_2 peptide1 k Hk) as [a Hak].
  assert (Ht : tok peptide1 (Z.of_nat k) = a).
  { unfold tok. rewrite Nat2Z.id, Hak. reflexivity. }
  rewrite (drop_S _ _ _ Hak) in Hf. cbn [Binary64.sums_finite] in Hf.
  apply andb_true_iff in Hf as [Hf Hrest].
  apply andb_true_iff in Hf as [Fm Fs].
  rewrite Ht in Hm. unfold Binary64.mass_of in *.
  unfold Binary64.walk_body. rewrite H1, H2, <- Hc, <- Hm, Ht.
  unfold Binary64.mass_diff.
  rewrite (ltb_abs_sub_diag _ _ Fs cum_pos), (ltb_abs_sub_diag _ _ Fm ind_pos).
  unfold Binary64.paired.
  cbn [Binary64.w_i1 Binary64.w_i2 Binary64.w_cum1 Binary64.w_cum2 Binary64.w_aa].
  repeat split; try lia.
  - rewrite Ha, Z.max_id, Nat2Z.id.
    rewrite insert_app_r_alt by (rewrite length_replicate; lia).
    rewrite length_replicate, Nat.sub_diag.
    replace (length peptide1 - k)%nat with (S (length peptide1 - S k)) by lia.
    simpl. rewrite app_comm_cons, replicate_cons_app, <- app_assoc. reflexivity.
  - exact Hrest.
Qed.

Lemma paired_while (fuel k : nat) (w : Binary64.walk) :
  (length peptide1 <= k + fuel)%nat -> Binary64.paired aa_dict peptide1 k w ->
  Binary64.paired aa_dict peptide1 (length peptide1)
    (Binary64.while (Binary64.prefix_guard peptide1 peptide2) body fuel w).
Proof.
  pose proof (Forall2_length _ _ _ same_masses) as L.
  revert k w. induction fuel as [| fuel IH]; intros k w Hf Hw; simpl.
  - assert (k = length peptide1) as <-; [| exact Hw].
    destruct Hw as (_ & _ & _ & Hk & _). lia.
  - destruct (Binary64.prefix_guard peptide1 peptide2 w) eqn:G.
    + apply (IH (S k)); [lia |]. apply paired_body; [| exact Hw].
      unfold Binary64.prefix_guard in G. destruct Hw as (H1 & _).
      apply andb_true_iff in G as [G _]. apply Z.ltb_lt in G. lia.
    + assert (k = length peptide1) as <-; [| exact Hw].
      unfold Binary64.prefix_guard in G. destruct Hw as (H1 & H2 & _ & Hk & _).
      rewrite H1, H2, <- L, andb_diag in G. apply Z.ltb_ge in G. lia.
Qed.

Lemma prefix_walk_paired :
  Binary64.sums_finite aa_dict 0 peptide1 = true ->
  Binary64.paired aa_dict peptide1 (length peptide1)
    (Binary64.prefix_walk peptide1 peptide2 aa_dict ptm_list
                          cum_mass_threshold ind_mass_threshold).
Proof.
  intros Hfin.
  pose proof (Forall2_length _ _ _ same_masses) as L.
  unfold Binary64.prefix_walk, Binary64.walk_fuel. apply (paired_while _ O); [lia |].
  unfold Binary64.paired, Binary64.prefix_init, np_zeros; simpl.
  rewrite <- L, Nat.max_id, Nat.sub_0_r. repeat split; (lia || reflexivity || idtac).
  exact Hfin.
Qed.

(** The walk has left its loop: the turns allowed were enough. *)
Lemma prefix_walk_equal_masses_ends :
  Binary64.sums_finite aa_dict 0 peptide1 = true ->
  Binary64.prefix_guard peptide1 peptide2
    (Binary64.prefix_walk peptide1 peptide2 aa_dict ptm_list
                          cum_mass_threshold ind_mass_threshold) = false.
Proof.
  intros Hfin. destruct (prefix_walk_paired Hfin) as (H1 & _).
  unfold Binary64.prefix_guard. rewrite H1.
  apply andb_false_iff. left. apply Z.ltb_ge. lia.
Qed.

Lemma prefix_walk_equal_masses :
  Binary64.sums_finite aa_dict 0 peptide1 = true ->
  Binary64.w_aa (Binary64.prefix_walk peptide1 peptide2 aa_dict ptm_list
                    cum_mass_threshold ind_mass_threshold)
  = replicate (length peptide1) true.
Proof.
  intros Hfin. destruct (prefix_walk_paired Hfin) as (_ & _ & _ & _ & Ha & _).
  rewrite Ha, Nat.sub_diag. apply app_nil_r.
Qed.
End EqualMasses.

(** ** A peptide against itself *)

(** C1 (as amended): with both tolerances strictly positive, and the masses
    of the tokens and the running sums of these masses all finite binary64
    numbers, aligning a tokenized peptide against itself yields a match
    array whose every entry is true, and a whole-sequence flag of true. *)
Theorem aa_match_identity (p : list string) (aa_dict : Binary64.aa_dict_t)
    (ptm_list : list string) (cum_tol ind_tol : float) (mode : string) :
  PrimFloat.ltb 0 cum_tol = true -> PrimFloat.ltb 0 ind_tol = true ->
  Binary64.sums_finite aa_dict 0 p = true ->
  v_aa (Binary64.aa_match p p aa_dict ptm_list cum_tol ind_tol mode)
    = replicate (length p) true /\
  v_pep (Binary64.aa_match p p aa_dict ptm_list cum_tol ind_tol mode) = true.
Proof.
  intros Hc Hi Hfin. unfold Binary64.aa_match, Binary64.aa_match_prefix.
  rewrite (prefix_walk_equal_masses p p aa_dict ptm_list cum_tol ind_tol Hc Hi).
  - rewrite np_all_replicate_true. split; reflexivity.
  - apply Forall2_same_length_lookup_2; [reflexivity |].
    intros i x y Hx Hy. congruence.
  - exact Hfin.
Qed.

Lemma aa_match_identity_witness :
  PrimFloat.ltb 0 0.5 = true /\ PrimFloat.ltb 0 0.1 = true /\
  Binary64.sums_finite demo_floats 0 ["G"; "A"; "M(+15.99)"]%string = true /\
  v_aa (Binary64.aa_match ["G"; "A"; "M(+15.99)"]%string
          ["G"; "A"; "M(+15.99)"]%string demo_floats ["M(+15.99)"%string]
          0.5 0.1 "best")
    = [true; true; true] /\
  v_pep (Binary64.aa_match ["G"; "A"; "M(+15.99)"]%string
           ["G"; "A"; "M(+15.99)"]%string demo_floats ["M(+15.99)"%string]
           0.5 0.1 "best") = true.
Proof.
  split; [reflexivity | split; [reflexivity | split; [reflexivity |]]].
  apply (aa_match_identity ["G"; "A"; "M(+15.99)"]%string demo_floats
           ["M(+15.99)"%string] 0.5 0.1 "best"); reflexivity.
Defined.

(** C1 as first stated fails at a tolerance of zero: the comparisons are
    strict, so a difference of exactly zero is not within a zero tolerance. *)
Lemma aa_match_identity_zero_tolerance :
  let r := aa_match ["A"%string] ["A"%string] demo_table [] 0 0 "best" in
  ["A"%string] <> [] /\ (0 <= 0)%Q /\
  v_aa r = [false] /\ v_pep r = false /\
  ~ (Forall (fun b => b = true) (v_aa r) /\ v_pep r = true).
Proof.
  vm_compute. repeat split; try discriminate.
  intros [_ H]. discriminate H.
Qed.

(** The same on binary64 numbers: at a tolerance of zero nothing matches. *)
Lemma aa_match_identity_zero_tolerance_binary64 :
  Binary64.aa_match ["A"%string] ["A"%string] demo_floats [] 0 0 "best"
  = ([false], false, [false], [false]).
Proof. reflexivity. Qed.

(** Without the finiteness condition the identity fails: three tokens of
    mass 1e308 overflow the running sum at the second turn, where an
    infinity minus itself is a NaN and both cursors then advance in
    different turns; the third token pairs up again in the walk from the
    end. *)
Lemma aa_match_identity_overflow :
  Binary64.sums_finite huge_floats 0 ["A"; "A"; "A"]%string = false /\
  Binary64.aa_match ["A"; "A"; "A"]%string ["A"; "A"; "A"]%string huge_floats []
                    0.5 0.1 "best"
  = ([true; false; true], false, [false; false; false], [false; false; false]).
Proof. split; reflexivity. Qed.

(** A token of infinite mass does not match itself. *)
Lemma aa_match_identity_infinite_mass :
  Binary64.sums_finite infinite_floats 0 ["A"%string] = false /\
  Binary64.aa_match ["A"%string] ["A"%string] infinite_floats [] 0.5 0.1 "best"
  = ([false], false, [false], [false]).
Proof. split; reflexivity. Qed.

(** ** The mode argument *)

(** C5: the pairwise aligner returns the same four outputs whatever the
    value of its [mode] argument. *)
Theorem aa_match_mode_irrelevant (peptide1 peptide2 : list string)
    (aa_dict : aa_dict_t) (ptm_list : list string) (cum_tol ind_tol : Q)
    (mode mode' : string) :
  aa_match peptide1 peptide2 aa_dict ptm_list cum_tol ind_tol mode
  = aa_match peptide1 peptide2 aa_dict ptm_list cum_tol ind_tol mode'.
Proof. reflexivity. Qed.

(** ** Exchanging the two peptides *)

Section Symmetry.
Variables peptide1 peptide2 : list string.
Variable aa_dict : aa_dict_t.
Variable ptm_list : list string.
Variables cum_mass_threshold ind_mass_threshold : Q.

Local Abbreviation body12 :=
  (walk_body peptide1 peptide2 aa_dict ptm_list cum_mass_threshold ind_mass_threshold).
Local Abbreviation body21 :=
  (walk_body peptide2 peptide1 aa_dict ptm_list cum_mass_threshold ind_mass_threshold).

(** With a positive cumulative tolerance the exchanged walk is the mirror
    image of the original one, turn by turn. *)
Lemma walk_body_swap (dir : Z) (w : walk) :
  (0 < cum_mass_threshold)%Q ->
  body21 dir (swap_walk w) = swap_walk (body12 dir w).
Proof.
  intros Hc. unfold walk_body, swap_walk, mass_diff.
  cbn [w_i1 w_i2 w_cum1 w_cum2 w_aa w_ptm1 w_ptm2].
  set (a1 := dict_get aa_dict (tok peptide1 (w_i1 w)) 0).
  set (a2 := dict_get aa_dict (tok peptide2 (w_i2 w)) 0).
  rewrite (Qabs_Qminus (w_cum2 w + a2) (w_cum1 w + a1)).
  rewrite (Qabs_Qminus a2 a1).
  rewrite (Z.max_comm (w_i2 w) (w_i1 w)).
  destruct (Qltb (Qabs (w_cum1 w + a1 - (w_cum2 w + a2))) cum_mass_threshold) eqn:C.
  - reflexivity.
  - rewrite (Qltb_trichotomy _ _ _ Hc C).
    destruct (Qltb (w_cum1 w + a1) (w_cum2 w + a2)); reflexivity.
Qed.

Lemma walk_body_frozen (dir : Z) (aa m1 m2 : list bool) (w : walk) :
  (cum_mass_threshold <= 0)%Q ->
  same_arrays aa m1 m2 w -> same_arrays aa m1 m2 (body12 dir w).
Proof.
  intros Hc Hw. unfold walk_body.
  rewrite (Qltb_abs_nonpos _ _ Hc).
  destruct (Qltb _ _); exact Hw.
Qed.

Lemma while_frozen (guard : walk -> bool) (dir : Z) (fuel : nat) (w : walk) :
  (cum_mass_threshold <= 0)%Q ->
  same_arrays (w_aa w) (w_ptm1 w) (w_ptm2 w) (while guard (body12 dir) fuel w).
Proof.
  intros Hc. apply while_inv.
  - intros w' _. apply walk_body_frozen, Hc.
  - repeat split.
Qed.

Lemma aa_match_frozen (mode : string) :
  (cum_mass_threshold <= 0)%Q ->
  let z := np_zeros (Nat.max (length peptide1) (length peptide2)) in
  aa_match peptide1 peptide2 aa_dict ptm_list
           cum_mass_threshold ind_mass_threshold mode
  = (z, np_all z, z, z).
Proof.
  intros Hc z. unfold aa_match, aa_match_prefix, prefix_walk.
  destruct (while_frozen (prefix_guard peptide1 peptide2) 1
              (walk_fuel peptide1 peptide2)
              (prefix_init peptide1 peptide2) Hc) as (-> & -> & ->).
  simpl. fold z.
  destruct (np_all z) eqn:A; [reflexivity |].
  unfold suffix_walk.
  destruct (while_frozen (suffix_guard (Z.of_nat (first_false z))) (-1)
              (walk_fuel peptide1 peptide2)
              (suffix_init peptide1 peptide2 z z z) Hc) as (-> & -> & ->).
  simpl. rewrite A. reflexivity.
Qed.
End Symmetry.

Lemma prefix_walk_swap (peptide1 peptide2 : list string) (aa_dict : aa_dict_t)
    (ptm_list : list string) (cum_tol ind_tol : Q) :
  (0 < cum_tol)%Q ->
  prefix_walk peptide2 peptide1 aa_dict ptm_list cum_tol ind_tol
  = swap_walk (prefix_walk peptide1 peptide2 aa_dict ptm_list cum_tol ind_tol).
Proof.
  intros Hc. unfold prefix_walk, walk_fuel.
  rewrite (Nat.add_comm (length peptide2)).
  apply (while_rel _ _ _ _ (fun w w' => w = swap_walk w')).
  - intros w w' ->. unfold prefix_guard; simpl. apply andb_comm.
  - intros w w' -> _. apply walk_body_swap, Hc.
  - unfold prefix_init, swap_walk; simpl.
    rewrite (Nat.max_comm (length peptide2)). reflexivity.
Qed.

Lemma suffix_walk_swap (peptide1 peptide2 : list string) (aa_dict : aa_dict_t)
    (ptm_list : list string) (cum_tol ind_tol : Q) (aa m1 m2 : list bool) :
  (0 < cum_tol)%Q ->
  suffix_walk peptide2 peptide1 aa_dict ptm_list cum_tol ind_tol aa m2 m1
  = swap_walk (suffix_walk peptide1 peptide2 aa_dict ptm_list cum_tol ind_tol
                           aa m1 m2).
Proof.
  intros Hc. unfold suffix_walk, walk_fuel.
  rewrite (Nat.add_comm (length peptide2)).
  apply (while_rel _ _ _ _ (fun w w' => w = swap_walk w')).
  - intros w w' ->. unfold suffix_guard; simpl. apply andb_comm.
  - intros w w' -> _. apply walk_body_swap, Hc.
  - reflexivity.
Qed.

(** C3: exchanging the two peptides leaves the amino-acid match array and
    the whole-sequence flag unchanged and exchanges the two PTM-match
    arrays. *)
Theorem aa_match_swap (peptide1 peptide2 : list string) (aa_dict : aa_dict_t)
    (ptm_list : list string) (cum_tol ind_tol : Q) (mode : string) :
  aa_match peptide2 peptide1 aa_dict ptm_list cum_tol ind_tol mode
  = swap_verdict
      (aa_match peptide1 peptide2 aa_dict ptm_list cum_tol ind_tol mode).
Proof.
  destruct (Qlt_le_dec 0 cum_tol) as [Hc | Hc].
  - unfold aa_match, aa_match_prefix.
    rewrite (prefix_walk_swap peptide1 peptide2) by exact Hc.
    set (w := prefix_walk peptide1 peptide2 aa_dict ptm_list cum_tol ind_tol).
    simpl. destruct (np_all (w_aa w)); [reflexivity |].
    rewrite (suffix_walk_swap peptide1 peptide2) by exact Hc.
    reflexivity.
  - rewrite !aa_match_frozen by exact Hc.
    rewrite (Nat.max_comm (length peptide2)). reflexivity.
Qed.

(** ** Widening the individual tolerance *)

Lemma below_refl (a : list bool) : below a a.
Proof. induction a; constructor; auto. Qed.

Lemma below_np_sum (a a' : list bool) : below a a' -> (np_sum a <= np_sum a')%nat.
Proof.
  unfold np_sum. induction 1 as [| b b' a a' Hb _ IH]; [reflexivity |].
  destruct b, b'; rewrite ?filter_cons_True, ?filter_cons_False by congruence;
    simpl; try lia.
Qed.

Section IndividualTolerance.
Variables peptide1 peptide2 : list string.
Variable aa_dict : aa_dict_t.
Variable ptm_list : list string.
Variables cum_mass_threshold ind_tol ind_tol' : Q.
Hypothesis ind_le : (ind_tol <= ind_tol')%Q.

(** The cursors and running masses of a walk do not depend on the individual
    tolerance; only the value written at each accepted position does. *)
Lemma walk_body_below (dir : Z) (w w' : walk) :
  same_cursor w w' ->
  same_cursor
    (walk_body peptide1 peptide2 aa_dict ptm_list cum_mass_threshold ind_tol dir w)
    (walk_body peptide1 peptide2 aa_dict ptm_list cum_mass_threshold ind_tol' dir w').
Proof.
  intros (H1 & H2 & C1 & C2 & Ha). unfold walk_body.
  rewrite <- H1, <- H2, <- C1, <- C2.
  repeat match goal with
         | |- context [if Qltb (Qabs (mass_diff (_ + _) _ _)) ?t then _ else _] =>
             destruct (Qltb (Qabs (mass_diff (w_cum1 w + _) _ true)) t)
         | |- context [if Qltb (w_cum1 w + ?a) ?y then _ else _] =>
             destruct (Qltb (w_cum1 w + a) y)
         end;
    unfold same_cursor; cbn [w_i1 w_i2 w_cum1 w_cum2 w_aa];
    repeat split; try assumption.
  apply Forall2_insert; [exact Ha |].
  intros Hm. exact (Qltb_mono _ _ _ ind_le Hm).
Qed.

Lemma prefix_walk_below :
  below
    (w_aa (prefix_walk peptide1 peptide2 aa_dict ptm_list cum_mass_threshold ind_tol))
    (w_aa (prefix_walk peptide1 peptide2 aa_dict ptm_list cum_mass_threshold ind_tol')).
Proof.
  unfold prefix_walk.
  apply (while_rel _ _ _ _ same_cursor).
  - intros w w' (H1 & H2 & _). unfold prefix_guard. rewrite H1, H2. reflexivity.
  - intros w w' Hw _. apply walk_body_below, Hw.
  - repeat split. apply below_refl.
Qed.
End IndividualTolerance.

(** C2 (as amended): with the cumulative tolerance held fixed, widening the
    individual tolerance never clears an entry of the match array of the
    prefix walk, so the number of true entries of that array does not
    decrease. *)
Theorem prefix_matches_monotone (peptide1 peptide2 : list string)
    (aa_dict : aa_dict_t) (ptm_list : list string) (cum_tol ind_tol ind_tol' : Q) :
  (ind_tol <= ind_tol')%Q ->
  below (prefix_aa peptide1 peptide2 aa_dict ptm_list cum_tol ind_tol)
        (prefix_aa peptide1 peptide2 aa_dict ptm_list cum_tol ind_tol') /\
  (np_sum (prefix_aa peptide1 peptide2 aa_dict ptm_list cum_tol ind_tol)
   <= np_sum (prefix_aa peptide1 peptide2 aa_dict ptm_list cum_tol ind_tol'))%nat.
Proof.
  intros Hle.
  assert (B := prefix_walk_below peptide1 peptide2 aa_dict ptm_list
                                 cum_tol ind_tol ind_tol' Hle).
  split; [exact B | apply below_np_sum, B].
Qed.

Lemma prefix_matches_monotone_witness :
  (1 # 100 <= 1 # 10)%Q /\
  (np_sum (prefix_aa ["K"; "Q"; "Q"; "Q"]%string ["Q"; "Q"]%string
                     demo_table [] (1 # 2) (1 # 100))
   <= np_sum (prefix_aa ["K"; "Q"; "Q"; "Q"]%string ["Q"; "Q"]%string
                        demo_table [] (1 # 2) (1 # 10)))%nat.
Proof.
  assert (H : (1 # 100 <= 1 # 10)%Q) by (vm_compute; discriminate).
  split; [exact H |].
  apply (prefix_matches_monotone ["K"; "Q"; "Q"; "Q"]%string ["Q"; "Q"]%string
           demo_table [] (1 # 2) (1 # 100) (1 # 10) H).
Defined.

(** C2 as first stated fails in either coordinate. Widening the cumulative
    tolerance lets the walk accept a pairing it would have stepped past,
    and widening the individual tolerance moves the point where the suffix
    walk stops. *)
Lemma tolerance_not_monotone :
  ((2 # 10 <= 5 # 10)%Q /\ (1 # 10 <= 1 # 10)%Q /\
   (np_sum (v_aa (aa_match ["U"; "V"; "U"]%string ["V"%string] small_table []
                           (5 # 10) (1 # 10) "best"))
    < np_sum (v_aa (aa_match ["U"; "V"; "U"]%string ["V"%string] small_table []
                             (2 # 10) (1 # 10) "best")))%nat) /\
  ((1 # 2 <= 1 # 2)%Q /\ (1 # 100 <= 1 # 10)%Q /\
   (np_sum (v_aa (aa_match ["K"; "Q"; "Q"; "Q"]%string ["Q"; "Q"]%string
                           demo_table [] (1 # 2) (1 # 10) "best"))
    < np_sum (v_aa (aa_match ["K"; "Q"; "Q"; "Q"]%string ["Q"; "Q"]%string
                             demo_table [] (1 # 2) (1 # 100) "best")))%nat).
Proof.
  repeat split; try (vm_compute; discriminate); vm_compute; lia.
Qed.

(** ** The batch evaluator *)

Section BatchFacts.
Variable aa_dict : aa_dict_t.
Variable ptm_list : list string.
Variables cum_mass_threshold ind_mass_threshold : Q.
Variable mode : string.

Local Abbreviation step :=
  (batch_step aa_dict ptm_list cum_mass_threshold ind_mass_threshold mode).
Local Abbreviation loop :=
  (batch_loop aa_dict ptm_list cum_mass_threshold ind_mass_threshold mode).
Local Abbreviation batch :=
  (aa_match_batch aa_dict ptm_list cum_mass_threshold ind_mass_threshold mode).

Lemma check_ptm_first_missing (ptms : list string) (log : list call) :
  check_ptm aa_dict ptms log =
  match first_missing aa_dict ptms with
  | Some ptm => (log, inl (ValueError_ptm ptm))
  | None => (log, inr tt)
  end.
Proof.
  induction ptms as [| ptm ptms IH]; simpl; [reflexivity |].
  destruct (str_in ptm (dict_keys aa_dict)); simpl; [exact IH | reflexivity].
Qed.

Lemma first_missing_some (ptms : list string) (ptm : string) :
  first_missing aa_dict ptms = Some ptm ->
  In ptm ptms /\ str_in ptm (dict_keys aa_dict) = false.
Proof.
  intros H. apply find_some in H as [H1 H2].
  split; [exact H1 | now apply negb_true_iff].
Qed.

Lemma first_missing_none (ptms : list string) :
  first_missing aa_dict ptms = None ->
  forall ptm, In ptm ptms -> str_in ptm (dict_keys aa_dict) = true.
Proof.
  intros H ptm Hin.
  pose proof (find_none _ _ H ptm Hin) as H'. simpl in H'.
  now apply negb_false_iff.
Qed.

Lemma split_peptide_error (s : string) (e : error) :
  split_peptide s aa_dict = inl e -> e = ValueError_unmatched s.
Proof.
  unfold split_peptide. destruct (String.eqb _ s); congruence.
Qed.

Lemma tokenize_cases (p : peptide_in) (log : list call) :
  (exists log' l, tokenize aa_dict p log = (log', inr l)) \/
  (exists log' s, tokenize aa_dict p log = (log', inl (ValueError_unmatched s))).
Proof.
  destruct p as [s | l]; simpl.
  - unfold logged. destruct (split_peptide s aa_dict) as [e | parts] eqn:E.
    + right. apply split_peptide_error in E as ->. eexists _, _. reflexivity.
    + left. eexists _, _. reflexivity.
  - left. eexists _, _. reflexivity.
Qed.

(** A turn either appends exactly one verdict or raises the tokenizer's
    error. *)
Lemma batch_step_cases (t : tally) (pr : peptide_in * peptide_in) (log : list call) :
  (exists log' t', step t pr log = (log', inr t') /\
     length (aa_matches_batch t') = S (length (aa_matches_batch t))) \/
  (exists log' s, step t pr log = (log', inl (ValueError_unmatched s))).
Proof.
  unfold batch_step, bind.
  destruct (tokenize_cases (fst pr) log) as [(l1 & p1 & ->) | (l1 & s & ->)];
    [| right; eexists _, _; reflexivity].
  destruct (tokenize_cases (snd pr) l1) as [(l2 & p2 & ->) | (l2 & s & ->)];
    [| right; eexists _, _; reflexivity].
  left. destruct (length p2 =? 0)%nat; unfold ret, logged;
    eexists _, _; (split; [reflexivity |]); simpl;
    rewrite length_app; simpl; lia.
Qed.

Lemma batch_loop_cases (pairs : list (peptide_in * peptide_in)) (t : tally)
    (log : list call) :
  (exists log' t', loop pairs t log = (log', inr t') /\
     length (aa_matches_batch t')
     = (length (aa_matches_batch t) + length pairs)%nat) \/
  (exists log' s, loop pairs t log = (log', inl (ValueError_unmatched s))).
Proof.
  revert t log. induction pairs as [| pr pairs IH]; intros t log; simpl.
  - left. exists log, t. split; [reflexivity | lia].
  - unfold bind.
    destruct (batch_step_cases t pr log) as [(l1 & t1 & -> & L1) | (l1 & s & ->)];
      [| right; eexists _, _; reflexivity].
    destruct (IH t1 l1) as [(l2 & t2 & -> & L2) | (l2 & s & ->)];
      [| right; eexists _, _; reflexivity].
    left. exists l2, t2. split; [reflexivity | lia].
Qed.

(** What the evaluator does with a tokenized pair whose prediction is empty:
    no call is made, and the verdict is all false. *)
Lemma batch_step_empty_prediction (t : tally) (peptide1 : list string)
    (log : list call) :
  step t (PepList peptide1, PepList []) log =
  (log,
   inr (MkTally
          (aa_matches_batch t ++
             [(replicate (length peptide1) false, false,
               replicate (length peptide1) false,
               replicate (length peptide1) false)])
          (n_aa1 t + length peptide1) (n_aa2 t + 0)
          (n_ptm_1 t + ptm_count ptm_list peptide1) (n_ptm_2 t + 0))).
Proof. reflexivity. Qed.

Lemma aligned_nonempty_snoc (log : list call) (c : call) :
  aligned_nonempty log ->
  (forall peptide1 peptide2, c = CallAaMatch peptide1 peptide2 -> peptide2 <> []) ->
  aligned_nonempty (log ++ [c]).
Proof.
  intros Hl Hc p1 p2 Hin. apply in_app_or in Hin as [Hin | [E | []]].
  - exact (Hl _ _ Hin).
  - exact (Hc _ _ E).
Qed.

Lemma tokenize_log (p : peptide_in) (log log' : list call)
    (r : error + list string) :
  tokenize aa_dict p log = (log', r) ->
  aligned_nonempty log -> aligned_nonempty log'.
Proof.
  destruct p as [s | l]; simpl.
  - unfold logged. destruct (split_peptide s aa_dict); intros [= <- _] Hl;
      (apply aligned_nonempty_snoc; [exact Hl | discriminate]).
  - intros [= <- _] Hl. exact Hl.
Qed.

Lemma batch_step_log (t : tally) (pr : peptide_in * peptide_in)
    (log log' : list call) (r : error + tally) :
  step t pr log = (log', r) ->
  aligned_nonempty log -> aligned_nonempty log'.
Proof.
  unfold batch_step, bind. intros H Hl.
  destruct (tokenize aa_dict (fst pr) log) as [l1 [e1 | p1]] eqn:T1;
    pose proof (tokenize_log _ _ _ _ T1 Hl) as Hl1;
    [injection H as <- _; exact Hl1 |].
  destruct (tokenize aa_dict (snd pr) l1) as [l2 [e2 | p2]] eqn:T2;
    pose proof (tokenize_log _ _ _ _ T2 Hl1) as Hl2;
    [injection H as <- _; exact Hl2 |].
  destruct (length p2 =? 0)%nat eqn:E; unfold ret, logged in H;
    injection H as <- _; [exact Hl2 |].
  apply aligned_nonempty_snoc; [exact Hl2 |].
  intros q1 q2 [= _ <-] ->. discriminate.
Qed.

Lemma batch_loop_log (pairs : list (peptide_in * peptide_in)) (t : tally)
    (log log' : list call) (r : error + tally) :
  loop pairs t log = (log', r) ->
  aligned_nonempty log -> aligned_nonempty log'.
Proof.
  revert t log. induction pairs as [| pr pairs IH]; intros t log; simpl.
  - intros [= <- _] Hl. exact Hl.
  - unfold bind. intros H Hl.
    destruct (step t pr log) as [l1 [e1 | t1]] eqn:S1;
      pose proof (batch_step_log _ _ _ _ _ S1 Hl) as Hl1.
    + injection H as <- _. exact Hl1.
    + exact (IH _ _ H Hl1).
Qed.

(** The loop only ever appends to the list of verdicts. *)
Lemma batch_loop_appends (pairs : list (peptide_in * peptide_in)) (t t' : tally)
    (log log' : list call) :
  loop pairs t log = (log', inr t') ->
  exists vs, aa_matches_batch t' = aa_matches_batch t ++ vs /\
             length vs = length pairs.
Proof.
  revert t log. induction pairs as [| pr pairs IH]; intros t log; simpl.
  - intros [= _ <-]. exists []. split; [symmetry; apply app_nil_r | reflexivity].
  - unfold bind. intros H.
    destruct (batch_step_cases t pr log) as [(l1 & t1 & S1 & L1) | (l1 & s & S1)];
      rewrite S1 in H; [| discriminate].
    destruct (IH _ _ H) as (vs & E & Lv).
    assert (exists v, aa_matches_batch t1 = aa_matches_batch t ++ [v]) as [v Ev].
    { clear - S1. unfold batch_step, bind in S1.
      destruct (tokenize aa_dict (fst pr) log) as [l [e | p1]]; [discriminate |].
      destruct (tokenize aa_dict (snd pr) l) as [l' [e | p2]]; [discriminate |].
      destruct (length p2 =? 0)%nat; unfold ret, logged in S1;
        injection S1 as _ <-; eexists; reflexivity. }
    exists (v :: vs). rewrite E, Ev, <- app_assoc. split; [reflexivity |].
    simpl. congruence.
Qed.

(** The verdict recorded at the position of a tokenized pair whose
    prediction is empty. *)
Lemma batch_loop_empty_prediction (pairs : list (peptide_in * peptide_in))
    (k : nat) (truth : list string) (t t' : tally) (log log' : list call) :
  pairs !! k = Some (PepList truth, PepList []) ->
  loop pairs t log = (log', inr t') ->
  aa_matches_batch t' !! (length (aa_matches_batch t) + k)%nat
  = Some (replicate (length truth) false, false,
          replicate (length truth) false, replicate (length truth) false).
Proof.
  revert k t log. induction pairs as [| pr pairs IH]; intros k t log Hk;
    [discriminate |].
  simpl. unfold bind. destruct k as [| k].
  - injection Hk as ->. rewrite batch_step_empty_prediction. intros H.
    apply batch_loop_appends in H as (vs & -> & _). simpl.
    rewrite <- app_assoc, Nat.add_0_r.
    apply list_lookup_middle. reflexivity.
  - simpl in Hk. intros H.
    destruct (batch_step_cases t pr log) as [(l1 & t1 & S1 & L1) | (l1 & s & S1)];
      rewrite S1 in H; [| discriminate].
    specialize (IH k t1 l1 Hk H). rewrite L1 in IH.
    replace (length (aa_matches_batch t) + S k)%nat
      with (S (length (aa_matches_batch t)) + k)%nat by lia.
    exact IH.
Qed.

Lemma combine_lookup {A B} (l : list A) (l' : list B) (k : nat) (a : A) (b : B) :
  l !! k = Some a -> l' !! k = Some b -> combine l l' !! k = Some (a, b).
Proof.
  revert l' k. induction l as [| x l IH]; intros [| y l'] [| k]; simpl;
    try discriminate.
  - intros [= ->] [= ->]. reflexivity.
  - apply IH.
Qed.

Lemma batch_run (peptides1 peptides2 : list peptide_in) :
  run (batch peptides1 peptides2) =
  match first_missing aa_dict ptm_list with
  | Some ptm => ([], inl (ValueError_ptm ptm))
  | None => loop (combine peptides1 peptides2) (MkTally [] 0 0 0 0) []
  end.
Proof.
  unfold run, aa_match_batch, bind. rewrite check_ptm_first_missing.
  destruct (first_missing aa_dict ptm_list); reflexivity.
Qed.
End BatchFacts.

Lemma combine_firstn_min {A B} (l : list A) (l' : list B) :
  combine l l'
  = combine (firstn (Nat.min (length l) (length l')) l)
            (firstn (Nat.min (length l) (length l')) l').
Proof.
  revert l'. induction l as [| a l IH]; intros [| b l']; simpl; try reflexivity.
  f_equal. apply IH.
Qed.

(** C4: when the truth is a tokenized peptide and the prediction is empty,
    the batch evaluator records for that pair, at its position in the list
    of verdicts, a verdict whose three boolean arrays are all false and as
    long as the truth, with a whole-sequence flag of false; and the pairwise
    aligner is not run on it: no call of the aligner in the call log is on an
    empty prediction, and the turn of the loop for that pair adds no call at
    all. *)
Theorem batch_empty_prediction (aa_dict : aa_dict_t) (ptm_list : list string)
    (cum_tol ind_tol : Q) (mode : string)
    (peptides1 peptides2 : list peptide_in) (k : nat) (truth : list string)
    (log : list call) (t : tally) :
  peptides1 !! k = Some (PepList truth) ->
  peptides2 !! k = Some (PepList []) ->
  run (aa_match_batch aa_dict ptm_list cum_tol ind_tol mode peptides1 peptides2)
    = (log, inr t) ->
  let v := (replicate (length truth) false, false,
            replicate (length truth) false, replicate (length truth) false) in
  aa_matches_batch t !! k = Some v /\
  length (v_aa v) = length truth /\ Forall (fun b => b = false) (v_aa v) /\
  v_pep v = false /\
  (forall peptide1 peptide2,
      In (CallAaMatch peptide1 peptide2) log -> peptide2 <> []) /\
  (forall t0 log0, exists t1,
      batch_step aa_dict ptm_list cum_tol ind_tol mode t0
                 (PepList truth, PepList []) log0 = (log0, inr t1)).
Proof.
  intros H1 H2 R v. rewrite batch_run in R.
  destruct (first_missing aa_dict ptm_list); [discriminate |].
  repeat split.
  - exact (batch_loop_empty_prediction _ _ _ _ _ _ k truth _ _ _ _
             (combine_lookup _ _ _ _ _ H1 H2) R).
  - unfold v, v_aa; simpl. apply length_replicate.
  - unfold v, v_aa; simpl. induction (length truth); simpl; constructor; auto.
  - apply (batch_loop_log _ _ _ _ _ _ _ _ _ _ R). intros p1 p2 [].
  - intros t0 log0. eexists. apply batch_step_empty_prediction.
Qed.

Lemma batch_empty_prediction_witness :
  let r := run (aa_match_batch demo_table ["M(+15.99)"%string] (1 # 2) (1 # 10)
                  "best" [PepStr "GA"; PepList ["A"; "G"]%string]
                  [PepStr "GA"; PepList []]) in
  exists t,
    snd r = inr t /\
    aa_matches_batch t !! 1%nat
    = Some ([false; false], false, [false; false], [false; false]) /\
    fst r = [CallSplit "GA"; CallSplit "GA";
             CallAaMatch ["G"; "A"]%string ["G"; "A"]%string].
Proof.
  intros r. eexists. split; [vm_compute; reflexivity |].
  split; [| vm_compute; reflexivity].
  refine (proj1 (batch_empty_prediction demo_table ["M(+15.99)"%string]
                   (1 # 2) (1 # 10) "best" [PepStr "GA"; PepList ["A"; "G"]%string]
                   [PepStr "GA"; PepList []] 1 ["A"; "G"]%string (fst r) _
                   eq_refl eq_refl _)).
  vm_compute. reflexivity.
Defined.

(** C9: applied directly to two empty peptides the pairwise aligner returns
    empty arrays and a whole-sequence flag of true, the conjunction over an
    empty array; the batch evaluator, for its part, records a flag of false
    for every tokenized pair whose prediction is empty, and for the pair of
    two empty peptides it records empty arrays with a flag of false. *)
Theorem aa_match_empty_vs_batch (aa_dict : aa_dict_t) (ptm_list : list string)
    (cum_tol ind_tol : Q) (mode : string) :
  aa_match [] [] aa_dict ptm_list cum_tol ind_tol mode = ([], true, [], []) /\
  np_all [] = true /\
  (forall (peptides1 peptides2 : list peptide_in) (k : nat) (truth : list string)
          (log : list call) (t : tally),
      peptides1 !! k = Some (PepList truth) ->
      peptides2 !! k = Some (PepList []) ->
      run (aa_match_batch aa_dict ptm_list cum_tol ind_tol mode
                          peptides1 peptides2) = (log, inr t) ->
      exists v, aa_matches_batch t !! k = Some v /\ v_pep v = false) /\
  (first_missing aa_dict ptm_list = None ->
   run (aa_match_batch aa_dict ptm_list cum_tol ind_tol mode
                       [PepList []] [PepList []])
   = ([], inr (MkTally [([], false, [], [])] 0 0 0 0))).
Proof.
  split; [reflexivity | split; [reflexivity | split]].
  - intros peptides1 peptides2 k truth log t H1 H2 R. rewrite batch_run in R.
    destruct (first_missing aa_dict ptm_list); [discriminate |].
    exists (replicate (length truth) false, false,
            replicate (length truth) false, replicate (length truth) false).
    split; [| reflexivity].
    exact (batch_loop_empty_prediction _ _ _ _ _ _ k truth _ _ _ _
             (combine_lookup _ _ _ _ _ H1 H2) R).
  - intros Hm. rewrite batch_run, Hm. reflexivity.
Qed.

Lemma aa_match_empty_vs_batch_witness :
  first_missing demo_table ["M(+15.99)"%string] = None /\
  aa_match [] [] demo_table ["M(+15.99)"%string] (1 # 2) (1 # 10) "best"
    = ([], true, [], []) /\
  run (aa_match_batch demo_table ["M(+15.99)"%string] (1 # 2) (1 # 10) "best"
                      [PepList []] [PepList []])
    = ([], inr (MkTally [([], false, [], [])] 0 0 0 0)).
Proof.
  pose proof (aa_match_empty_vs_batch demo_table ["M(+15.99)"%string]
                (1 # 2) (1 # 10) "best") as (A & _ & _ & B).
  split; [reflexivity | split; [exact A | apply B; reflexivity]].
Defined.

(** C8: the batch evaluator fails with the PTM configuration error exactly
    when some token of the PTM set is not a key of the mass table; when it
    does, the error names such a token, no call to the tokenizer or to the
    aligner has been made, and the outcome is the same whatever the two
    peptide lists hold. *)
Theorem batch_ptm_check (aa_dict : aa_dict_t) (ptm_list : list string)
    (cum_tol ind_tol : Q) (mode : string) (peptides1 peptides2 : list peptide_in) :
  let r := run (aa_match_batch aa_dict ptm_list cum_tol ind_tol mode
                               peptides1 peptides2) in
  ((exists ptm, In ptm ptm_list /\ str_in ptm (dict_keys aa_dict) = false) <->
   (exists ptm, snd r = inl (ValueError_ptm ptm))) /\
  (forall ptm, snd r = inl (ValueError_ptm ptm) ->
     In ptm ptm_list /\ str_in ptm (dict_keys aa_dict) = false /\
     fst r = [] /\
     forall peptides1' peptides2',
       run (aa_match_batch aa_dict ptm_list cum_tol ind_tol mode
                           peptides1' peptides2') = r).
Proof.
  intros r. subst r. rewrite batch_run.
  destruct (first_missing aa_dict ptm_list) as [ptm0 |] eqn:Hm.
  - destruct (first_missing_some _ _ _ Hm) as [Hin Hk]. split.
    + split; intros _; [exists ptm0; reflexivity | exists ptm0; auto].
    + simpl. intros ptm [= <-]. repeat split; try assumption.
      intros p1' p2'. rewrite batch_run, Hm. reflexivity.
  - pose proof (first_missing_none _ _ Hm) as Hall.
    assert (Hno : forall ptm,
               snd (batch_loop aa_dict ptm_list cum_tol ind_tol mode
                      (combine peptides1 peptides2) (MkTally [] 0 0 0 0) [])
               <> inl (ValueError_ptm ptm)).
    { intros ptm.
      destruct (batch_loop_cases aa_dict ptm_list cum_tol ind_tol mode
                  (combine peptides1 peptides2) (MkTally [] 0 0 0 0) [])
        as [(l & t & -> & _) | (l & s & ->)]; simpl; congruence. }
    split.
    + split.
      * intros (ptm & Hin & Hk). rewrite (Hall ptm Hin) in Hk. discriminate.
      * intros (ptm & H). destruct (Hno ptm H).
    + intros ptm H. destruct (Hno ptm H).
Qed.

Lemma batch_ptm_check_witness :
  let r := run (aa_match_batch demo_table ["M(+15.99)"; "N(+.98)"]%string
                               (1 # 2) (1 # 10) "best"
                               [PepStr "GXA"] [PepStr "GA"]) in
  snd r = inl (ValueError_ptm "N(+.98)") /\ fst r = [].
Proof.
  intros r.
  assert (H : snd r = inl (ValueError_ptm "N(+.98)")) by reflexivity.
  split; [exact H |].
  pose proof (batch_ptm_check demo_table ["M(+15.99)"; "N(+.98)"]%string
                (1 # 2) (1 # 10) "best" [PepStr "GXA"] [PepStr "GA"]) as T.
  cbv zeta in T. destruct T as (_ & T).
  destruct (T _ H) as (_ & _ & L & _). exact L.
Defined.

(** C10: peptide lists of different lengths raise nothing of their own. The
    evaluator does exactly what it does on the two lists cut to the shorter
    length, so the surplus peptides add nothing to the counts, the verdicts
    or the calls; and when it returns, it returns one verdict per pair of
    the shorter length. *)
Theorem batch_unequal_lengths (aa_dict : aa_dict_t) (ptm_list : list string)
    (cum_tol ind_tol : Q) (mode : string) (peptides1 peptides2 : list peptide_in) :
  let n := Nat.min (length peptides1) (length peptides2) in
  let r := run (aa_match_batch aa_dict ptm_list cum_tol ind_tol mode
                               peptides1 peptides2) in
  r = run (aa_match_batch aa_dict ptm_list cum_tol ind_tol mode
                          (firstn n peptides1) (firstn n peptides2)) /\
  (forall t, snd r = inr t -> length (aa_matches_batch t) = n) /\
  (forall e, snd r = inl e ->
     (exists ptm, e = ValueError_ptm ptm) \/ (exists s, e = ValueError_unmatched s)).
Proof.
  intros n r. subst n r. split; [| split].
  - rewrite !batch_run. rewrite <- combine_firstn_min. reflexivity.
  - intros t. rewrite batch_run.
    destruct (first_missing aa_dict ptm_list); [discriminate |].
    destruct (batch_loop_cases aa_dict ptm_list cum_tol ind_tol mode
                (combine peptides1 peptides2) (MkTally [] 0 0 0 0) [])
      as [(l & t' & -> & L) | (l & s & ->)]; simpl; [| discriminate].
    intros [= <-]. rewrite L. simpl. apply length_combine.
  - intros e. rewrite batch_run.
    destruct (first_missing aa_dict ptm_list) as [ptm |].
    + simpl. intros [= <-]. left. eexists. reflexivity.
    + destruct (batch_loop_cases aa_dict ptm_list cum_tol ind_tol mode
                  (combine peptides1 peptides2) (MkTally [] 0 0 0 0) [])
        as [(l & t' & -> & L) | (l & s & ->)]; simpl; [discriminate |].
      intros [= <-]. right. eexists. reflexivity.
Qed.

Lemma batch_unequal_lengths_witness :
  exists t,
    snd (run (aa_match_batch demo_table ["M(+15.99)"%string] (1 # 2) (1 # 10) "best"
                [PepStr "GA"; PepStr "NXN"; PepStr "K"] [PepStr "GA"]))
    = inr t /\
    length (aa_matches_batch t) = 1%nat.
Proof.
  eexists. split; [vm_compute; reflexivity |].
  pose proof (batch_unequal_lengths demo_table ["M(+15.99)"%string]
                (1 # 2) (1 # 10) "best"
                [PepStr "GA"; PepStr "NXN"; PepStr "K"] [PepStr "GA"]) as T.
  cbv zeta in T. destruct T as (_ & T & _).
  apply T. vm_compute. reflexivity.
Defined.

(** ** The tokenizer *)

Lemma append_empty_r (s : string) : (s ++ EmptyString)%string = s.
Proof. induction s; simpl; congruence. Qed.

Lemma append_length (s1 s2 : string) :
  String.length (s1 ++ s2) = (String.length s1 + String.length s2)%nat.
Proof. induction s1; simpl; congruence. Qed.

Lemma concat_cons (x : string) (xs : list string) :
  String.concat EmptyString (x :: xs)
  = (x ++ String.concat EmptyString xs)%string.
Proof.
  destruct xs; simpl; [symmetry; apply append_empty_r | reflexivity].
Qed.

Lemma prefix_empty (k : string) : String.prefix k EmptyString = true -> k = EmptyString.
Proof. destruct k; simpl; congruence. Qed.

Lemma prefix_cons (k : string) (c : ascii) (s : string) :
  String.prefix k (String c s) = true ->
  k = EmptyString \/ exists k0, k = String c k0 /\ String.prefix k0 s = true.
Proof.
  destruct k as [| c' k0]; [left; reflexivity |]. simpl.
  destruct (ascii_dec c' c) as [-> |]; [| discriminate].
  intros H. right. exists k0. split; [reflexivity | exact H].
Qed.

Lemma prefix_length (k s : string) :
  String.prefix k s = true -> (String.length k <= String.length s)%nat.
Proof.
  revert k. induction s as [| c s IH]; intros k H.
  - apply prefix_empty in H as ->. reflexivity.
  - apply prefix_cons in H as [-> | (k0 & -> & H)]; simpl; [lia |].
    specialize (IH _ H). lia.
Qed.

Lemma prefix_drop (k s : string) :
  String.prefix k s = true -> (k ++ string_drop (String.length k) s)%string = s.
Proof.
  revert k. induction s as [| c s IH]; intros k H.
  - apply prefix_empty in H as ->. reflexivity.
  - apply prefix_cons in H as [-> | (k0 & -> & H)]; simpl; [reflexivity |].
    f_equal. apply IH, H.
Qed.

(** Two keys that both start the same input and are equally long are the
    same key. *)
Lemma prefix_same_length (k k' s : string) :
  String.prefix k s = true -> String.prefix k' s = true ->
  String.length k = String.length k' -> k = k'.
Proof.
  revert k k'. induction s as [| c s IH]; intros k k' H H' L.
  - apply prefix_empty in H, H'. congruence.
  - apply prefix_cons in H as [-> | (k0 & -> & H)];
      apply prefix_cons in H' as [-> | (k0' & -> & H')]; simpl in L;
      try discriminate; [reflexivity |].
    f_equal. apply (IH _ _ H H'). lia.
Qed.

Lemma nonempty_length (k : string) : nonempty k = true -> (0 < String.length k)%nat.
Proof. destruct k; simpl; [discriminate | lia]. Qed.

(** *** The sorted keys *)

Lemma insert_by_len_In (k x : string) (l : list string) :
  In x (insert_by_len k l) <-> x = k \/ In x l.
Proof.
  induction l as [| y l IH]; simpl.
  - intuition.
  - destruct (String.length y <=? String.length k)%nat; simpl; [intuition |].
    rewrite IH. intuition.
Qed.

Lemma sorted_by_len_In (x : string) (l : list string) :
  In x (sorted_by_len l) <-> In x l.
Proof.
  induction l as [| k l IH]; simpl; [reflexivity |].
  rewrite insert_by_len_In, IH. intuition.
Qed.

Lemma insert_by_len_sorted (k : string) (l : list string) :
  StronglySorted by_len_desc l -> StronglySorted by_len_desc (insert_by_len k l).
Proof.
  induction 1 as [| y l Hs IH Hy]; simpl.
  - constructor; constructor.
  - destruct (String.length y <=? String.length k)%nat eqn:E.
    + apply Nat.leb_le in E. constructor; [constructor; assumption |].
      constructor; [exact E |].
      rewrite List.Forall_forall in Hy |- *. intros z Hz.
      specialize (Hy z Hz). unfold by_len_desc in *. lia.
    + apply Nat.leb_gt in E. constructor; [exact IH |].
      rewrite List.Forall_forall in Hy |- *. intros z Hz.
      apply insert_by_len_In in Hz as [-> | Hz]; [| auto].
      unfold by_len_desc. lia.
Qed.

Lemma sorted_by_len_sorted (l : list string) :
  StronglySorted by_len_desc (sorted_by_len l).
Proof.
  induction l; simpl; [constructor | apply insert_by_len_sorted; assumption].
Qed.

(** In a list sorted by descending length the first element a test accepts
    is a longest one it accepts. *)
Lemma find_sorted_longest (f : string -> bool) (l : list string) (k : string) :
  StronglySorted by_len_desc l -> find f l = Some k ->
  forall k', In k' l -> f k' = true -> (String.length k' <= String.length k)%nat.
Proof.
  induction 1 as [| y l Hs IH Hy]; simpl; [discriminate |].
  destruct (f y) eqn:Fy.
  - intros [= <-] k' [<- | Hk'] _; [lia |].
    rewrite List.Forall_forall in Hy. apply (Hy k' Hk').
  - intros Hf k' [<- | Hk'] Fk'; [congruence | eauto].
Qed.

Lemma find_filter_nonempty (s : string) (l : list string) :
  first_match (filter (fun k => nonempty k = true) l) s = find (applies s) l.
Proof.
  unfold first_match, applies. induction l as [| y l IH]; [reflexivity |].
  rewrite filter_cons. simpl find.
  destruct (decide (nonempty y = true)) as [E | E].
  - rewrite E. simpl. destruct (String.prefix y s); [reflexivity | exact IH].
  - apply not_true_is_false in E. rewrite E. simpl. exact IH.
Qed.

Lemma filter_join_alternation (l : list string) :
  filter (fun k => nonempty k = true) (join_alternation l)
  = filter (fun k => nonempty k = true) l.
Proof. destruct l; reflexivity. Qed.

(** *** The longest key of the specification *)

Lemma longest_key_some (keys : list string) (s k : string) :
  longest_key keys s = Some k ->
  In k keys /\ applies s k = true /\
  forall k', In k' keys -> applies s k' = true ->
             (String.length k' <= String.length k)%nat.
Proof.
  revert k. induction keys as [| y keys IH]; intros k; simpl; [discriminate |].
  fold (applies s y).
  destruct (applies s y) eqn:Ay.
  - destruct (longest_key keys s) as [k0 |] eqn:L.
    + destruct (IH k0 eq_refl) as (I0 & A0 & M0).
      destruct (String.length k0 <=? String.length y)%nat eqn:E.
      * apply Nat.leb_le in E. intros [= <-].
        repeat split; auto.
        intros k' [<- | Hk'] Ak'; [lia |]. specialize (M0 k' Hk' Ak'). lia.
      * apply Nat.leb_gt in E. intros [= <-].
        repeat split; auto.
        intros k' [<- | Hk'] Ak'; [lia | auto].
    + intros [= <-]. repeat split; auto.
      intros k' [<- | Hk'] Ak'; [lia |].
      exfalso. clear IH. revert Hk' Ak'. revert L. clear.
      induction keys as [| z keys IH]; simpl; [tauto |].
      fold (applies s z). destruct (applies s z) eqn:Az.
      * destruct (longest_key keys s) as [k1 |];
          [destruct (String.length k1 <=? String.length z)%nat |]; discriminate.
      * intros L [<- | Hk'] Ak'; [congruence | eauto].
  - intros L. destruct (IH k L) as (I0 & A0 & M0). repeat split; auto.
    intros k' [<- | Hk'] Ak'; [congruence | auto].
Qed.

Lemma longest_key_none (keys : list string) (s : string) :
  longest_key keys s = None -> forall k', In k' keys -> applies s k' = false.
Proof.
  induction keys as [| z keys IH]; simpl; [tauto |].
  fold (applies s z). destruct (applies s z) eqn:Az.
  - destruct (longest_key keys s) as [k1 |];
      [destruct (String.length k1 <=? String.length z)%nat |]; discriminate.
  - intros L k' [<- | Hk']; [exact Az | auto].
Qed.

(** The first alternative the engine can take is the longest key that
    applies. *)
Lemma first_match_longest (keys : list string) (s : string) :
  first_match
    (filter (fun k => nonempty k = true) (join_alternation (sorted_by_len keys))) s
  = longest_key keys s.
Proof.
  rewrite filter_join_alternation, find_filter_nonempty.
  destruct (find (applies s) (sorted_by_len keys)) as [k |] eqn:F;
    destruct (longest_key keys s) as [k' |] eqn:L.
  - f_equal.
    pose proof (find_sorted_longest _ _ _ (sorted_by_len_sorted keys) F) as M.
    apply find_some in F as [I A].
    apply longest_key_some in L as (I' & A' & M').
    assert (P : String.prefix k s = true)
      by (unfold applies in A; apply andb_true_iff in A; tauto).
    assert (P' : String.prefix k' s = true)
      by (unfold applies in A'; apply andb_true_iff in A'; tauto).
    apply (prefix_same_length _ _ s P P').
    apply Nat.le_antisymm.
    + apply M'; [apply sorted_by_len_In, I | exact A].
    + apply M; [apply sorted_by_len_In, I' | exact A'].
  - exfalso. apply find_some in F as [I A].
    apply (proj1 (sorted_by_len_In _ _)) in I.
    rewrite (longest_key_none _ _ L k I) in A. discriminate.
  - exfalso. apply longest_key_some in L as (I' & A' & _).
    apply (proj2 (sorted_by_len_In _ _)) in I'.
    pose proof (find_none _ _ F k' I'). congruence.
  - reflexivity.
Qed.

(** *** The scan of the engine against the segmentation *)

Lemma first_match_cases (alts : list string) (s : string) :
  match first_match alts s with
  | Some k =>
      nonempty k = true ->
      first_match (filter (fun k => nonempty k = true) alts) s = Some k
  | None => first_match (filter (fun k => nonempty k = true) alts) s = None
  end.
Proof.
  unfold first_match. induction alts as [| y alts IH]; simpl; [reflexivity |].
  rewrite filter_cons.
  destruct (String.prefix y s) eqn:P.
  - intros N. rewrite decide_True by exact N. simpl. rewrite P. reflexivity.
  - destruct (decide (nonempty y = true)); simpl; rewrite ?P; exact IH.
Qed.

Lemma filter_nonempty_cons (k : string) (l : list string) :
  filter (fun part => nonempty part = true) (k :: l)
  = if nonempty k then k :: filter (fun part => nonempty part = true) l
    else filter (fun part => nonempty part = true) l.
Proof.
  rewrite filter_cons. destruct (nonempty k) eqn:N.
  - rewrite decide_True by reflexivity. reflexivity.
  - rewrite decide_False by discriminate. reflexivity.
Qed.

Section Scan.
Variable keys : list string.

Local Abbreviation alts := (join_alternation (sorted_by_len keys)).

(** Dropping the empty matches from what [re.findall] reports leaves the
    tokens of the greedy longest-match segmentation. *)
Lemma findall_greedy (s : string) (skip : nat) :
  filter (fun part => nonempty part = true) (findall alts s skip)
  = fst (greedy_segment keys s skip).
Proof.
  revert skip. induction s as [| c s IH]; intros skip.
  - destruct skip; simpl; [| reflexivity].
    pose proof (first_match_cases alts EmptyString) as C.
    rewrite (first_match_longest keys EmptyString) in *.
    assert (L : longest_key keys EmptyString = None).
    { destruct (longest_key keys EmptyString) as [k' |] eqn:L; [| reflexivity].
      exfalso. apply longest_key_some in L as (_ & A & _).
      unfold applies in A. apply andb_true_iff in A as [N' P].
      apply prefix_empty in P as ->. discriminate. }
    rewrite L in *.
    destruct (first_match alts EmptyString) as [k |]; [| reflexivity].
    destruct (nonempty k) eqn:N; [specialize (C eq_refl); discriminate |].
    rewrite filter_nonempty_cons, N. reflexivity.
  - destruct skip as [| skip]; [| simpl; apply IH].
    pose proof (first_match_cases alts (String c s)) as C.
    cbn [findall greedy_segment].
    rewrite (first_match_longest keys (String c s)) in *.
    destruct (first_match alts (String c s)) as [k |].
    + destruct (nonempty k) eqn:N.
      * rewrite (C eq_refl).
        rewrite filter_nonempty_cons, N, IH.
        destruct (greedy_segment keys s (String.length k - 1)); reflexivity.
      * rewrite filter_nonempty_cons, N.
        destruct (longest_key keys (String c s)) as [k' |] eqn:L.
        -- assert (N' : nonempty k' = true).
           { apply longest_key_some in L as (_ & A & _).
             unfold applies in A. apply andb_true_iff in A. tauto. }
           rewrite filter_nonempty_cons, N', IH.
           destruct (greedy_segment keys s (String.length k' - 1)); reflexivity.
        -- rewrite IH. destruct (greedy_segment keys s 0); reflexivity.
    + rewrite C, IH. destruct (greedy_segment keys s 0); reflexivity.
Qed.

(** What the segmentation consumes and what it leaves add up to the input. *)
Lemma greedy_segment_length (s : string) (skip : nat) :
  (skip <= String.length s)%nat ->
  (String.length (String.concat EmptyString (fst (greedy_segment keys s skip)))
   + length (snd (greedy_segment keys s skip)) + skip = String.length s)%nat.
Proof.
  revert skip. induction s as [| c s IH]; intros skip Hs.
  - simpl in *. lia.
  - destruct skip as [| skip]; cbn [greedy_segment].
    + destruct (longest_key keys (String c s)) as [k |] eqn:L.
      * apply longest_key_some in L as (_ & A & _).
        unfold applies in A. apply andb_true_iff in A as [N P].
        apply nonempty_length in N. apply prefix_length in P. simpl in P.
        specialize (IH (String.length k - 1)%nat ltac:(lia)).
        destruct (greedy_segment keys s (String.length k - 1)) as [toks rest].
        cbn [fst snd] in *. rewrite concat_cons, append_length. simpl. lia.
      * specialize (IH O ltac:(lia)).
        destruct (greedy_segment keys s 0) as [toks rest].
        cbn [fst snd] in *. simpl. lia.
    + simpl in Hs. specialize (IH skip ltac:(lia)). simpl. lia.
Qed.

(** When nothing is left unconsumed, the tokens spell the input. *)
Lemma greedy_segment_concat (s : string) (skip : nat) :
  (skip <= String.length s)%nat ->
  snd (greedy_segment keys s skip) = [] ->
  String.concat EmptyString (fst (greedy_segment keys s skip))
  = string_drop skip s.
Proof.
  revert skip. induction s as [| c s IH]; intros skip Hs.
  - destruct skip; reflexivity.
  - destruct skip as [| skip]; cbn [greedy_segment].
    + destruct (longest_key keys (String c s)) as [k |] eqn:L.
      * apply longest_key_some in L as (_ & A & _).
        unfold applies in A. apply andb_true_iff in A as [N P].
        apply prefix_cons in P as [-> | (k0 & -> & P)]; [discriminate |].
        pose proof (prefix_length _ _ P) as Len.
        replace (String.length (String c k0) - 1)%nat with (String.length k0)
          by (simpl; lia).
        specialize (IH (String.length k0) Len).
        destruct (greedy_segment keys s (String.length k0)) as [toks rest].
        cbn [fst snd] in *. intros R. rewrite concat_cons, (IH R). simpl.
        f_equal. apply prefix_drop, P.
      * destruct (greedy_segment keys s 0) as [toks rest]. discriminate.
    + simpl in Hs. simpl. apply IH. lia.
Qed.
End Scan.

(** C7: the tokenizer either returns tokens whose concatenation is the input
    string, character for character, or raises its error; the tokens are
    those of the greedy longest-match segmentation, and it raises exactly
    when that segmentation leaves part of the input unconsumed. *)
Theorem split_peptide_segmentation (peptide : string) (aa_dict : aa_dict_t) :
  let seg := greedy_segment (dict_keys aa_dict) peptide 0 in
  match split_peptide peptide aa_dict with
  | inr parts =>
      String.concat EmptyString parts = peptide /\ parts = fst seg /\ snd seg = []
  | inl e => e = ValueError_unmatched peptide /\ snd seg <> []
  end.
Proof.
  intros seg. unfold split_peptide. rewrite findall_greedy. fold seg.
  destruct (String.eqb (String.concat EmptyString (fst seg)) peptide) eqn:E.
  - apply String.eqb_eq in E. repeat split; [exact E |].
    pose proof (greedy_segment_length (dict_keys aa_dict) peptide O
                  ltac:(lia)) as Len.
    fold seg in Len. rewrite E in Len.
    destruct (snd seg); [reflexivity | simpl in Len; lia].
  - apply String.eqb_neq in E. split; [reflexivity |].
    intros R. apply E.
    apply (greedy_segment_concat (dict_keys aa_dict) peptide O); [lia | exact R].
Qed.

(** ** The metric aggregator *)

Lemma Qnat_le (a b : nat) : (a <= b)%nat -> (Qnat a <= Qnat b)%Q.
Proof. intros H. unfold Qnat. rewrite <- Zle_Qle. lia. Qed.

Lemma Qnat_nonneg (a : nat) : (0 <= Qnat a)%Q.
Proof. apply (Qnat_le 0 a). lia. Qed.

Lemma Qnat_pos (a : nat) : (0 < a)%nat -> (0 < Qnat a)%Q.
Proof. intros H. unfold Qnat. change 0%Q with (inject_Z 0). rewrite <- Zlt_Qlt. lia. Qed.

Lemma eps_pos : (0 < eps)%Q.
Proof. reflexivity. Qed.

(** A count over a guarded denominator is never negative, and is at most
    one when the count does not exceed the number it is divided by. *)
Lemma guarded_ratio_nonneg (a b : nat) : (0 <= Qnat a / (Qnat b + eps))%Q.
Proof.
  pose proof (Qnat_nonneg a). pose proof (Qnat_nonneg b). pose proof eps_pos.
  apply Qle_shift_div_l; lra.
Qed.

Lemma guarded_ratio_le_one (a b : nat) :
  (a <= b)%nat -> (Qnat a / (Qnat b + eps) <= 1)%Q.
Proof.
  intros H. pose proof (Qnat_le a b H). pose proof (Qnat_nonneg b).
  pose proof eps_pos. apply Qle_shift_div_r; lra.
Qed.

Lemma ratio_unit (c k : nat) :
  (c <= k)%nat -> (1 <= k)%nat -> (0 <= Qnat c / Qnat k <= 1)%Q.
Proof.
  intros H K. pose proof (Qnat_le c k H). pose proof (Qnat_nonneg c).
  pose proof (Qnat_pos k K). split.
  - apply Qle_shift_div_l; lra.
  - apply Qle_shift_div_r; lra.
Qed.

Lemma ratio_mono (c c' n : nat) :
  (c <= c')%nat -> (Qnat c / Qnat n <= Qnat c' / Qnat n)%Q.
Proof.
  intros H. unfold Qdiv. apply Qmult_le_compat_r; [apply Qnat_le, H |].
  apply Qinv_le_0_compat, Qnat_nonneg.
Qed.

(** *** The running counts *)

Lemma cumsum_from_length (acc : nat) (l : list bool) :
  length (cumsum_from acc l) = length l.
Proof. revert acc. induction l; intros acc; simpl; congruence. Qed.

Lemma cumsum_from_range (acc : nat) (l : list bool) :
  List.Forall (fun c => (acc <= c <= acc + length l)%nat) (cumsum_from acc l).
Proof.
  revert acc. induction l as [| b l IH]; intros acc; simpl; constructor.
  - destruct b; lia.
  - eapply List.Forall_impl; [| apply IH]. simpl. intros c. destruct b; lia.
Qed.

Lemma cumsum_from_sorted (acc : nat) (l : list bool) :
  Sorted le (cumsum_from acc l).
Proof.
  revert acc. induction l as [| b l IH]; intros acc; simpl; constructor.
  - apply IH.
  - destruct l as [| b' l]; simpl; constructor. destruct b'; lia.
Qed.

(** Each running precision is a count over a rank that is at least the
    count. *)
Lemma running_precision_unit (acc j : nat) (l : list bool) :
  (acc <= j)%nat ->
  List.Forall unit_interval
    (map (fun '(c, k) => (Qnat c / Qnat k)%Q)
         (combine (cumsum_from acc l) (seq (S j) (length l)))).
Proof.
  revert acc j. induction l as [| b l IH]; intros acc j H; simpl; constructor.
  - apply ratio_unit; destruct b; lia.
  - apply IH. destruct b; lia.
Qed.

Lemma running_recall_unit (l : list bool) :
  List.Forall unit_interval
    (map (fun c => (Qnat c / Qnat (length l))%Q) (np_cumsum l)).
Proof.
  destruct l as [| b l]; [constructor |].
  unfold np_cumsum. pose proof (cumsum_from_range 0 (b :: l)) as R.
  apply List.Forall_map. eapply List.Forall_impl; [| exact R].
  simpl. intros c Hc. apply ratio_unit; lia.
Qed.

Lemma Sorted_map_mono {A B} (R : A -> A -> Prop) (R' : B -> B -> Prop)
    (f : A -> B) (l : list A) :
  (forall a a', R a a' -> R' (f a) (f a')) ->
  Sorted R l -> Sorted R' (map f l).
Proof.
  intros Hf. induction 1 as [| a l Hs IH Hh]; simpl; constructor; [exact IH |].
  destruct Hh; simpl; constructor. auto.
Qed.

Lemma running_recall_sorted (l : list bool) :
  Sorted Qle (map (fun c => (Qnat c / Qnat (length l))%Q) (np_cumsum l)).
Proof.
  apply (Sorted_map_mono le); [| apply cumsum_from_sorted].
  intros a a'. apply ratio_mono.
Qed.

(** *** The area under the curve *)

Lemma trapezoid_term (a b c : Q) :
  (0 <= a)%Q -> unit_interval b -> unit_interval c ->
  (0 <= a * (b + c) / 2 <= a)%Q.
Proof.
  unfold unit_interval. intros Ha Hb Hc.
  assert (H1 : (0 <= a * (b + c))%Q) by (apply Qmult_le_0_compat; lra).
  assert (H2 : (0 <= a * (2 - (b + c)))%Q) by (apply Qmult_le_0_compat; lra).
  assert (E : (a * (2 - (b + c)) == 2 * a - a * (b + c))%Q) by ring.
  rewrite E in H2. clear E.
  set (t := (a * (b + c))%Q) in *.
  split.
  - apply Qle_shift_div_l; lra.
  - apply Qle_shift_div_r; lra.
Qed.

(** Over abscissas that do not decrease and stay below [hi], with ordinates
    in the unit interval, the trapezoid sum is at least zero and at most the
    distance from the first abscissa to [hi]. *)
Lemma np_trapz_bounds (hi : Q) (x y : list Q) :
  length y = length x ->
  Sorted Qle x -> List.Forall (fun v => (v <= hi)%Q) x ->
  List.Forall unit_interval y ->
  (0 <= np_trapz y x)%Q /\
  forall x0 rest, x = x0 :: rest -> (np_trapz y x <= hi - x0)%Q.
Proof.
  revert y. induction x as [| x0 x IH]; intros y Hl Hs Hx Hy.
  - destruct y; [| discriminate]. simpl. split; [lra | discriminate].
  - destruct y as [| y0 y]; [discriminate |].
    destruct x as [| x1 x].
    + destruct y; [| discriminate]. simpl. split; [lra |]. intros ? ? [= <- _].
      apply List.Forall_inv in Hx. lra.
    + destruct y as [| y1 y]; [discriminate |].
      change (np_trapz (y0 :: y1 :: y) (x0 :: x1 :: x))
        with ((x1 - x0) * (y1 + y0) / 2 + np_trapz (y1 :: y) (x1 :: x))%Q.
      apply Sorted_inv in Hs as [Hs Hh]. apply HdRel_inv in Hh.
      pose proof (List.Forall_inv Hy) as U0.
      apply List.Forall_inv_tail in Hy. pose proof (List.Forall_inv Hy) as U1.
      apply List.Forall_inv_tail in Hx.
      destruct (IH (y1 :: y) ltac:(simpl in *; lia) Hs Hx Hy) as [T0 T1].
      specialize (T1 x1 x eq_refl).
      destruct (trapezoid_term (x1 - x0) y1 y0 ltac:(lra) U1 U0) as [A0 A1].
      split; [lra |]. intros ? ? [= <- _]. lra.
Qed.

Lemma np_diff_nonneg (x : list Q) :
  Sorted Qle x -> existsb (fun d => Qltb d 0) (np_diff x) = false.
Proof.
  induction 1 as [| x0 x Hs IH Hh]; [reflexivity |].
  destruct Hh as [| x1 x Hle]; [reflexivity |].
  change (np_diff (x0 :: x1 :: x)) with ((x1 - x0)%Q :: np_diff (x1 :: x)).
  cbn [existsb]. rewrite IH, orb_false_r. apply Qltb_ge. lra.
Qed.

Lemma auc_bounds (x y : list Q) (a : Q) :
  length y = length x ->
  Sorted Qle x -> List.Forall unit_interval x -> List.Forall unit_interval y ->
  auc x y = inr a -> unit_interval a.
Proof.
  intros Hl Hs Hx Hy. unfold auc.
  destruct (length x <? 2)%nat; [discriminate |].
  rewrite (np_diff_nonneg x Hs). intros [= <-].
  assert (Hhi : List.Forall (fun v => (v <= 1)%Q) x).
  { eapply List.Forall_impl; [| exact Hx]. unfold unit_interval. tauto. }
  destruct (np_trapz_bounds 1 x y Hl Hs Hhi Hy) as [T0 T1].
  split; [exact T0 |].
  destruct x as [| x0 rest]; [simpl; destruct y; simpl; lra |].
  specialize (T1 x0 rest eq_refl).
  apply List.Forall_inv in Hx. unfold unit_interval in Hx. lra.
Qed.

Lemma sum_pep_le_length (batch : list verdict) :
  (sum_of (fun v => if v_pep v then 1 else 0) batch <= length batch)%nat.
Proof.
  unfold sum_of. induction batch as [| v batch IH]; simpl; [lia |].
  destruct (v_pep v); lia.
Qed.

Lemma guarded_ratio_int_nonneg (a : nat) (b : Z) :
  0 <= b -> (0 <= Qnat a / (inject_Z b + eps))%Q.
Proof.
  intros Hb. pose proof (Qnat_nonneg a). pose proof eps_pos.
  assert (P : (0 <= inject_Z b)%Q)
    by (change 0%Q with (inject_Z 0); rewrite <- Zle_Qle; exact Hb).
  apply Qle_shift_div_l; lra.
Qed.

(** What does hold of the six values, for any list of verdicts and counts
    that are not negative: none is negative, and the peptide precision and
    the area under the curve are at most one. *)
Lemma aa_match_metrics_bounds (batch : list verdict)
    (n_aa_true n_aa_pred n_ptm_true n_ptm_pred : Z) (scores : list Q)
    (m : metrics) :
  0 <= n_aa_true -> 0 <= n_aa_pred -> 0 <= n_ptm_true -> 0 <= n_ptm_pred ->
  aa_match_metrics batch n_aa_true n_aa_pred n_ptm_true n_ptm_pred scores = inr m ->
  (0 <= aa_precision m)%Q /\ (0 <= aa_recall m)%Q /\
  (0 <= ptm_recall m)%Q /\ (0 <= ptm_precision m)%Q /\
  unit_interval (pep_precision m) /\ unit_interval (curve_auc m).
Proof.
  intros H1 H2 H3 H4. unfold aa_match_metrics.
  destruct (negb _); [discriminate |].
  set (bools := map snd (sorted_by_score (combine scores (map v_pep batch)))).
  destruct (auc _ _) as [e | a] eqn:A; [discriminate |].
  intros [= <-]. cbn [aa_precision aa_recall ptm_recall ptm_precision
                      pep_precision curve_auc].
  assert (U : unit_interval a).
  { eapply auc_bounds; [| | | | exact A].
    - rewrite !length_map, length_combine.
      unfold np_cumsum. rewrite cumsum_from_length, length_seq. lia.
    - apply running_recall_sorted.
    - apply running_recall_unit.
    - apply (running_precision_unit 0 0). lia. }
  repeat split; try (apply guarded_ratio_int_nonneg; assumption);
    try apply U.
  - apply guarded_ratio_nonneg.
  - apply guarded_ratio_le_one, sum_pep_le_length.
Qed.




(** C6 fails on the code. The suffix walk pairs again a predicted token that
    the prefix walk has already counted: against the truth [GGANA] the
    prediction [NA] gets three entries set, one more than it has tokens, and
    the amino-acid precision of the batch is [4 / (3 + 1e-8)], above one.
    With truth and prediction exchanged the recall is above one. *)
Theorem aa_precision_above_one :
  np_sum (v_aa (aa_match ["G"; "G"; "A"; "N"; "A"]%string ["N"; "A"]%string
                         demo_table ["M(+15.99)"%string] (1 # 2) (1 # 10) "best"))
    = 3%nat /\
  (exists m,
      batch_metrics demo_table ["M(+15.99)"%string] (1 # 2) (1 # 10) "best"
               [PepStr "GGANA"; PepStr "A"] [PepStr "NA"; PepStr "A"]
               [9 # 10; 8 # 10]%Q = inr m /\
      (aa_precision m == 400000000 # 300000001)%Q /\ (1 < aa_precision m)%Q) /\
  (exists m,
      batch_metrics demo_table ["M(+15.99)"%string] (1 # 2) (1 # 10) "best"
               [PepStr "NA"; PepStr "A"] [PepStr "GGANA"; PepStr "A"]
               [9 # 10; 8 # 10]%Q = inr m /\
      (1 < aa_recall m)%Q).
Proof.
  split; [vm_compute; reflexivity |]. split.
  - eexists. split; [vm_compute; reflexivity |]. split; vm_compute; reflexivity.
  - eexists. split; [vm_compute; reflexivity |]. vm_compute; reflexivity.
Qed.

(** * Further properties of the aligner *)

(** ** The shape of the result *)

Section Shape.
Variables peptide1 peptide2 : list string.
Variable aa_dict : aa_dict_t.
Variable ptm_list : list string.
Variables cum_mass_threshold ind_mass_threshold : Q.

Local Abbreviation body := (walk_body peptide1 peptide2 aa_dict ptm_list
                                      cum_mass_threshold ind_mass_threshold).

Lemma walk_body_all_sized (n : nat) (dir : Z) (w : walk) :
  all_sized n w -> all_sized n (body dir w).
Proof.
  unfold all_sized, walk_body. intros (Ha & H1 & H2).
  repeat match goal with |- context [if ?b then _ else _] => destruct b end;
    cbn [w_aa w_ptm1 w_ptm2]; rewrite ?length_insert; auto.
Qed.

Lemma while_all_sized (n : nat) (guard : walk -> bool) (dir : Z) (fuel : nat)
    (w : walk) :
  all_sized n w -> all_sized n (while guard (body dir) fuel w).
Proof.
  apply while_inv. intros w' _. apply walk_body_all_sized.
Qed.

Lemma prefix_walk_all_sized :
  all_sized (Nat.max (length peptide1) (length peptide2))
    (prefix_walk peptide1 peptide2 aa_dict ptm_list
                 cum_mass_threshold ind_mass_threshold).
Proof.
  apply while_all_sized. unfold all_sized, prefix_init, np_zeros; simpl.
  rewrite length_replicate. auto.
Qed.
End Shape.

(** The three arrays the aligner returns have [max(len(peptide1),
    len(peptide2))] entries each, and the flag it returns is the conjunction
    of the match array it returns, on the early return as after the suffix
    walk. *)
Theorem aa_match_shape (peptide1 peptide2 : list string) (aa_dict : aa_dict_t)
    (ptm_list : list string) (cum_tol ind_tol : Q) (mode : string) :
  let v := aa_match peptide1 peptide2 aa_dict ptm_list cum_tol ind_tol mode in
  let n := Nat.max (length peptide1) (length peptide2) in
  length (v_aa v) = n /\ length (v_ptm1 v) = n /\ length (v_ptm2 v) = n /\
  v_pep v = np_all (v_aa v).
Proof.
  intros v n. subst v. unfold aa_match, aa_match_prefix.
  destruct (prefix_walk_all_sized peptide1 peptide2 aa_dict ptm_list
              cum_tol ind_tol) as (Ha & H1 & H2).
  set (w := prefix_walk peptide1 peptide2 aa_dict ptm_list cum_tol ind_tol) in *.
  destruct (np_all (w_aa w)) eqn:A.
  - unfold v_aa, v_pep, v_ptm1, v_ptm2; simpl. auto.
  - unfold suffix_walk.
    destruct (while_all_sized peptide1 peptide2 aa_dict ptm_list cum_tol ind_tol n
                (suffix_guard (Z.of_nat (first_false (w_aa w)))) (-1)
                (walk_fuel peptide1 peptide2)
                (suffix_init peptide1 peptide2 (w_aa w) (w_ptm1 w) (w_ptm2 w)))
      as (Ha' & H1' & H2'); [repeat split; assumption |].
    unfold v_aa, v_pep, v_ptm1, v_ptm2; simpl. auto.
Qed.

(** ** A tolerance of zero or less *)

Section NoTolerance.
Variables peptide1 peptide2 : list string.
Variable aa_dict : aa_dict_t.
Variable ptm_list : list string.
Variables cum_mass_threshold ind_mass_threshold : Q.
Hypothesis ind_nonpos : (ind_mass_threshold <= 0)%Q.

Local Abbreviation body := (walk_body peptide1 peptide2 aa_dict ptm_list
                                      cum_mass_threshold ind_mass_threshold).

(** With an individual tolerance of zero or less every accepted position is
    written [False], which leaves arrays of zeros as they are. *)
Lemma walk_body_zeros (n : nat) (dir : Z) (w : walk) :
  same_arrays (np_zeros n) (np_zeros n) (np_zeros n) w ->
  same_arrays (np_zeros n) (np_zeros n) (np_zeros n) (body dir w).
Proof.
  intros (Ha & H1 & H2). unfold walk_body.
  rewrite (Qltb_abs_nonpos _ _ ind_nonpos).
  repeat match goal with |- context [if ?b then _ else _] => destruct b end;
    unfold same_arrays; cbn [w_aa w_ptm1 w_ptm2]; repeat split; try assumption.
  rewrite Ha. apply insert_replicate.
Qed.

Lemma aa_match_zeros (mode : string) :
  let z := np_zeros (Nat.max (length peptide1) (length peptide2)) in
  aa_match peptide1 peptide2 aa_dict ptm_list
           cum_mass_threshold ind_mass_threshold mode
  = (z, np_all z, z, z).
Proof.
  intros z. unfold aa_match, aa_match_prefix, prefix_walk.
  destruct (while_inv (prefix_guard peptide1 peptide2) (body 1)
              (same_arrays z z z)
              (fun w _ => walk_body_zeros _ 1 w)
              (walk_fuel peptide1 peptide2) (prefix_init peptide1 peptide2))
    as (-> & -> & ->); [repeat split |].
  destruct (np_all z) eqn:A; [reflexivity |].
  unfold suffix_walk.
  destruct (while_inv (suffix_guard (Z.of_nat (first_false z))) (body (-1))
              (same_arrays z z z)
              (fun w _ => walk_body_zeros _ (-1) w)
              (walk_fuel peptide1 peptide2)
              (suffix_init peptide1 peptide2 z z z))
    as (-> & -> & ->); [repeat split |].
  rewrite A. reflexivity.
Qed.
End NoTolerance.

(** When either tolerance is zero or negative nothing is ever reported as
    matching: the three arrays come back all false, and the flag is true
    only for two empty peptides. *)
Theorem aa_match_without_tolerance (peptide1 peptide2 : list string)
    (aa_dict : aa_dict_t) (ptm_list : list string) (cum_tol ind_tol : Q)
    (mode : string) :
  (cum_tol <= 0)%Q \/ (ind_tol <= 0)%Q ->
  let n := Nat.max (length peptide1) (length peptide2) in
  aa_match peptide1 peptide2 aa_dict ptm_list cum_tol ind_tol mode
  = (replicate n false, bool_decide (n = 0%nat),
     replicate n false, replicate n false).
Proof.
  intros H n.
  assert (E : np_all (np_zeros n) = bool_decide (n = 0%nat)).
  { destruct n; reflexivity. }
  rewrite <- E. destruct H as [H | H].
  - apply aa_match_frozen, H.
  - apply aa_match_zeros, H.
Qed.

Lemma aa_match_without_tolerance_witness :
  ((1 # 2 <= 0)%Q \/ (0 <= 0)%Q) /\
  aa_match ["G"; "A"]%string ["G"; "A"; "N"]%string demo_table [] (1 # 2) 0 "best"
  = ([false; false; false], false,
     [false; false; false], [false; false; false]).
Proof.
  assert (H : (1 # 2 <= 0)%Q \/ (0 <= 0)%Q) by (right; discriminate).
  split; [exact H |].
  exact (aa_match_without_tolerance ["G"; "A"]%string ["G"; "A"; "N"]%string
           demo_table [] (1 # 2) 0 "best" H).
Defined.

(** ** Tokens of equal mass *)

(** Two peptides with as many tokens, whose tokens have position by position
    the same binary64 mass (unknown tokens counting for zero), align as a
    full match whatever the tokens are called, once both tolerances are
    positive and the masses and their running sums are finite: leucine
    against isoleucine, or one unknown token against another. *)
Theorem aa_match_equal_masses (peptide1 peptide2 : list string)
    (aa_dict : Binary64.aa_dict_t) (ptm_list : list string)
    (cum_tol ind_tol : float) (mode : string) :
  PrimFloat.ltb 0 cum_tol = true -> PrimFloat.ltb 0 ind_tol = true ->
  Forall2 (fun a b => Binary64.mass_of aa_dict a = Binary64.mass_of aa_dict b)
          peptide1 peptide2 ->
  Binary64.sums_finite aa_dict 0 peptide1 = true ->
  v_aa (Binary64.aa_match peptide1 peptide2 aa_dict ptm_list cum_tol ind_tol mode)
    = replicate (length peptide1) true /\
  v_pep (Binary64.aa_match peptide1 peptide2 aa_dict ptm_list cum_tol ind_tol mode)
    = true.
Proof.
  intros Hc Hi F Hfin. unfold Binary64.aa_match, Binary64.aa_match_prefix.
  rewrite (prefix_walk_equal_masses peptide1 peptide2 aa_dict ptm_list
             cum_tol ind_tol Hc Hi F Hfin).
  rewrite np_all_replicate_true. split; reflexivity.
Qed.

Lemma aa_match_equal_masses_witness :
  v_aa (Binary64.aa_match ["G"; "I"; "x"]%string ["G"; "L"; "y"]%string
          isobaric_floats [] 0.5 0.1 "best") = [true; true; true] /\
  v_pep (Binary64.aa_match ["G"; "I"; "x"]%string ["G"; "L"; "y"]%string
           isobaric_floats [] 0.5 0.1 "best") = true.
Proof.
  apply (aa_match_equal_masses ["G"; "I"; "x"]%string ["G"; "L"; "y"]%string
           isobaric_floats [] 0.5 0.1 "best"); try reflexivity.
  repeat constructor.
Defined.

(** Equal masses that overflow the running sum do not align in full. *)
Lemma aa_match_equal_masses_overflow :
  Binary64.sums_finite (("B"%string, 1e308%float) :: huge_floats) 0
                       ["A"; "A"; "A"]%string = false /\
  v_pep (Binary64.aa_match ["A"; "A"; "A"]%string ["B"; "B"; "B"]%string
           (("B"%string, 1e308%float) :: huge_floats) [] 0.5 0.1 "best") = false.
Proof. split; reflexivity. Qed.

(** ** Tokens the table does not list *)

Lemma dict_get_app_zero (d : aa_dict_t) (token k : string) :
  dict_get (d ++ [(token, 0%Q)]) k 0 = dict_get d k 0.
Proof.
  induction d as [| [k' v] d IH]; simpl.
  - destruct (String.eqb token k); reflexivity.
  - destruct (String.eqb k' k); [reflexivity | exact IH].
Qed.

Section SameMasses.
Variables peptide1 peptide2 : list string.
Variables aa_dict aa_dict' : aa_dict_t.
Variable ptm_list : list string.
Variables cum_mass_threshold ind_mass_threshold : Q.
Hypothesis same_get : forall k, dict_get aa_dict' k 0 = dict_get aa_dict k 0.

Lemma walk_body_same_get (dir : Z) (w : walk) :
  walk_body peptide1 peptide2 aa_dict' ptm_list
            cum_mass_threshold ind_mass_threshold dir w
  = walk_body peptide1 peptide2 aa_dict ptm_list
              cum_mass_threshold ind_mass_threshold dir w.
Proof. unfold walk_body. rewrite !same_get. reflexivity. Qed.

Lemma while_same_get (guard : walk -> bool) (dir : Z) (fuel : nat) (w : walk) :
  while guard (walk_body peptide1 peptide2 aa_dict' ptm_list
                         cum_mass_threshold ind_mass_threshold dir) fuel w
  = while guard (walk_body peptide1 peptide2 aa_dict ptm_list
                           cum_mass_threshold ind_mass_threshold dir) fuel w.
Proof.
  revert w. induction fuel as [| fuel IH]; intros w; simpl; [reflexivity |].
  destruct (guard w); [| reflexivity]. rewrite walk_body_same_get. apply IH.
Qed.

Lemma aa_match_same_get (mode : string) :
  aa_match peptide1 peptide2 aa_dict' ptm_list
           cum_mass_threshold ind_mass_threshold mode
  = aa_match peptide1 peptide2 aa_dict ptm_list
             cum_mass_threshold ind_mass_threshold mode.
Proof.
  unfold aa_match, aa_match_prefix, prefix_walk, suffix_walk.
  rewrite !while_same_get. reflexivity.
Qed.
End SameMasses.

(** A token that is not a key of the table is aligned exactly as if the
    table listed it with a mass of zero: adding that entry changes nothing
    in what the aligner returns. *)
Theorem aa_match_unknown_token (peptide1 peptide2 : list string)
    (aa_dict : aa_dict_t) (ptm_list : list string) (cum_tol ind_tol : Q)
    (mode : string) (token : string) :
  str_in token (dict_keys aa_dict) = false ->
  aa_match peptide1 peptide2 (aa_dict ++ [(token, 0%Q)]) ptm_list
           cum_tol ind_tol mode
  = aa_match peptide1 peptide2 aa_dict ptm_list cum_tol ind_tol mode.
Proof.
  intros _. apply aa_match_same_get. intros k. apply dict_get_app_zero.
Qed.

Lemma aa_match_unknown_token_witness :
  str_in "x" (dict_keys demo_table) = false /\
  aa_match ["G"; "x"; "A"]%string ["G"; "A"]%string
           (demo_table ++ [("x"%string, 0%Q)]) [] (1 # 2) (1 # 10) "best"
  = aa_match ["G"; "x"; "A"]%string ["G"; "A"]%string demo_table []
             (1 # 2) (1 # 10) "best".
Proof.
  split; [reflexivity |].
  apply (aa_match_unknown_token ["G"; "x"; "A"]%string ["G"; "A"]%string
           demo_table [] (1 # 2) (1 # 10) "best" "x"). reflexivity.
Defined.

(** ** What the prefix walk counts *)

Lemma np_sum_cons (b : bool) (a : list bool) :
  np_sum (b :: a) = ((if b then 1 else 0) + np_sum a)%nat.
Proof.
  unfold np_sum. destruct b.
  - rewrite filter_cons_True by reflexivity. reflexivity.
  - rewrite filter_cons_False by discriminate. reflexivity.
Qed.

Lemma np_sum_insert (a : list bool) (i : nat) (b : bool) :
  a !! i <> Some true ->
  (np_sum (<[i:=b]> a) <= np_sum a + (if b then 1 else 0))%nat.
Proof.
  revert i. induction a as [| x a IH]; intros i H.
  - destruct i; unfold np_sum; simpl; lia.
  - destruct i as [| i]; simpl.
    + rewrite !np_sum_cons.
      destruct x; [exfalso; apply H; reflexivity |]. destruct b; lia.
    + rewrite !np_sum_cons. specialize (IH i H). lia.
Qed.

Lemma clear_from_le (j j' : nat) (a : list bool) :
  (j <= j')%nat -> clear_from j a -> clear_from j' a.
Proof. intros Hj H i Hi. apply H. lia. Qed.

Lemma clear_from_insert (j : nat) (a : list bool) (b : bool) :
  clear_from j a -> clear_from (S j) (<[j:=b]> a).
Proof.
  intros H i Hi. rewrite list_lookup_insert_ne by lia. apply H. lia.
Qed.

Lemma clear_from_zeros (n j : nat) : clear_from j (np_zeros n).
Proof.
  intros i _ H. unfold np_zeros in H.
  apply lookup_replicate in H as [H _]. discriminate.
Qed.

Lemma implies_at_insert (j : nat) (a b : list bool) (x : bool) :
  length a = length b -> implies_at a b ->
  implies_at (<[j:=x]> a) (<[j:=true]> b).
Proof.
  intros L H i Hi. destruct (decide (i = j)) as [-> | N].
  - apply list_lookup_insert_eq.
    rewrite <- L, <- (length_insert a j x). apply lookup_lt_is_Some. eauto.
  - rewrite list_lookup_insert_ne in Hi |- * by congruence. auto.
Qed.

Lemma implies_at_clear (j : nat) (a b : list bool) :
  clear_from j a -> implies_at a b -> implies_at a (<[j:=false]> b).
Proof.
  intros C H i Hi. destruct (decide (i = j)) as [-> | N].
  - destruct (C j (Nat.le_refl j) Hi).
  - rewrite list_lookup_insert_ne by congruence. auto.
Qed.

Lemma implies_at_below (a b : list bool) :
  length a = length b -> implies_at a b -> below a b.
Proof.
  revert b. induction a as [| x a IH]; intros [| y b] L H; try discriminate.
  - constructor.
  - constructor.
    + intros ->. specialize (H O eq_refl). simpl in H. congruence.
    + apply IH; [simpl in L; lia |]. intros i Hi. exact (H (S i) Hi).
Qed.

Lemma ptm_count_app (ptm_list l l' : list string) :
  ptm_count ptm_list (l ++ l')
  = (ptm_count ptm_list l + ptm_count ptm_list l')%nat.
Proof. unfold ptm_count. rewrite map_app, list_sum_app. reflexivity. Qed.

Lemma ptm_count_take_S (ptm_list p : list string) (i : nat) :
  (i < length p)%nat ->
  ptm_count ptm_list (take (S i) p)
  = (ptm_count ptm_list (take i p)
     + if str_in (tok p (Z.of_nat i)) ptm_list then 1 else 0)%nat.
Proof.
  intros Hi. unfold tok. rewrite Nat2Z.id.
  apply lookup_lt_is_Some in Hi as [x Hx].
  rewrite (take_S_r _ _ _ Hx), ptm_count_app, Hx. unfold ptm_count; simpl. lia.
Qed.

Lemma ptm_count_take_le (ptm_list p : list string) (i : nat) :
  (ptm_count ptm_list (take i p) <= ptm_count ptm_list p)%nat.
Proof.
  rewrite <- (take_drop i p) at 2. rewrite ptm_count_app. lia.
Qed.

Section PrefixCounts.
Variables peptide1 peptide2 : list string.
Variable aa_dict : aa_dict_t.
Variable ptm_list : list string.
Variables cum_mass_threshold ind_mass_threshold : Q.

Local Abbreviation body := (walk_body peptide1 peptide2 aa_dict ptm_list
                                      cum_mass_threshold ind_mass_threshold 1).
Local Abbreviation inv := (prefix_inv peptide1 peptide2 ptm_list).

Lemma prefix_inv_init : inv (prefix_init peptide1 peptide2).
Proof.
  unfold prefix_inv, prefix_init, all_sized, np_zeros; simpl.
  rewrite length_replicate.
  assert (Z0 : forall n, np_sum (replicate n false) = 0%nat).
  { induction n; simpl; [reflexivity |]. rewrite np_sum_cons. exact IHn. }
  rewrite Z0.
  repeat split; try lia; try apply clear_from_zeros;
    intros i H; apply lookup_replicate in H as [H _]; discriminate.
Qed.

Lemma prefix_inv_body (w : walk) :
  prefix_guard peptide1 peptide2 w = true -> inv w -> inv (body w).
Proof.
  intros G (I1 & I2 & (La & L1 & L2) & Ca & C1 & C2 & Sa & S1 & S2 & M1 & M2).
  unfold prefix_guard in G. apply andb_true_iff in G as [G1 G2].
  apply Z.ltb_lt in G1, G2.
  assert (T1 := ptm_count_take_S ptm_list peptide1 (Z.to_nat (w_i1 w))
                  ltac:(lia)).
  assert (T2 := ptm_count_take_S ptm_list peptide2 (Z.to_nat (w_i2 w))
                  ltac:(lia)).
  rewrite Z2Nat.id in T1, T2 by lia.
  set (idx := Z.to_nat (Z.max (w_i1 w) (w_i2 w))) in *.
  unfold walk_body. fold idx.
  destruct (Qltb (Qabs (mass_diff _ _ true)) cum_mass_threshold).
  - set (m := Qltb (Qabs (mass_diff _ _ true)) ind_mass_threshold).
    unfold prefix_inv, all_sized. cbn [w_i1 w_i2 w_aa w_ptm1 w_ptm2].
    replace (Z.to_nat (Z.max (w_i1 w + 1) (w_i2 w + 1))) with (S idx)
      by (unfold idx; lia).
    replace (Z.to_nat (w_i1 w + 1)) with (S (Z.to_nat (w_i1 w))) by lia.
    replace (Z.to_nat (w_i2 w + 1)) with (S (Z.to_nat (w_i2 w))) by lia.
    pose proof (np_sum_insert (w_aa w) idx m (Ca idx (Nat.le_refl _))) as Na.
    pose proof (np_sum_insert (w_ptm1 w) idx
                  (str_in (tok peptide1 (w_i1 w)) ptm_list)
                  (C1 idx (Nat.le_refl _))) as N1.
    pose proof (np_sum_insert (w_ptm2 w) idx
                  (str_in (tok peptide2 (w_i2 w)) ptm_list)
                  (C2 idx (Nat.le_refl _))) as N2.
    rewrite T1, T2.
    destruct m.
    + rewrite !length_insert.
      repeat split; try lia; try (apply clear_from_insert; assumption);
        try (apply implies_at_insert; [congruence | assumption]).
    + rewrite !length_insert.
      repeat split; try lia; try (apply clear_from_insert; assumption);
        try (apply clear_from_le with idx; [lia | assumption]);
        try (apply implies_at_clear; assumption).
  - destruct (Qltb _ _);
      unfold prefix_inv, all_sized; cbn [w_i1 w_i2 w_aa w_ptm1 w_ptm2].
    + replace (Z.to_nat (w_i1 w + 1)) with (S (Z.to_nat (w_i1 w))) by lia.
      rewrite T1.
      repeat split; try lia; try assumption;
        try (eapply clear_from_le; [| eassumption]; unfold idx; lia).
    + replace (Z.to_nat (w_i2 w + 1)) with (S (Z.to_nat (w_i2 w))) by lia.
      rewrite T2.
      repeat split; try lia; try assumption;
        try (eapply clear_from_le; [| eassumption]; unfold idx; lia).
Qed.

Lemma prefix_walk_inv :
  inv (prefix_walk peptide1 peptide2 aa_dict ptm_list
                   cum_mass_threshold ind_mass_threshold).
Proof.
  unfold prefix_walk. apply while_inv; [| apply prefix_inv_init].
  intros w G. apply prefix_inv_body, G.
Qed.
End PrefixCounts.

Lemma np_all_np_sum (a : list bool) : np_all a = true -> np_sum a = length a.
Proof.
  induction a as [| b a IH]; [reflexivity |]. simpl.
  rewrite np_sum_cons. destruct b; simpl; [| discriminate].
  intros H. rewrite (IH H). reflexivity.
Qed.

(** The prefix walk on its own never sets more entries than the shorter
    peptide has tokens; so when it reports a full match, which is when the
    aligner returns early, the two peptides have the same number of
    tokens. *)
Theorem aa_match_prefix_count (peptide1 peptide2 : list string)
    (aa_dict : aa_dict_t) (ptm_list : list string) (cum_tol ind_tol : Q) :
  match aa_match_prefix peptide1 peptide2 aa_dict ptm_list cum_tol ind_tol with
  | (aa_matches, _, _, pep_match) =>
      (np_sum aa_matches <= Nat.min (length peptide1) (length peptide2))%nat /\
      (pep_match = true -> length peptide1 = length peptide2)
  end.
Proof.
  unfold aa_match_prefix.
  destruct (prefix_walk_inv peptide1 peptide2 aa_dict ptm_list cum_tol ind_tol)
    as (I1 & I2 & (La & _) & _ & _ & _ & Sa & _).
  set (w := prefix_walk peptide1 peptide2 aa_dict ptm_list cum_tol ind_tol) in *.
  split; [lia |].
  intros A. apply np_all_np_sum in A. lia.
Qed.

(** In the result of the prefix walk a PTM flag is only set where the match
    flag is set, and neither PTM array has more entries set than its peptide
    has tokens of the PTM list. *)
Theorem aa_match_prefix_ptm (peptide1 peptide2 : list string)
    (aa_dict : aa_dict_t) (ptm_list : list string) (cum_tol ind_tol : Q) :
  match aa_match_prefix peptide1 peptide2 aa_dict ptm_list cum_tol ind_tol with
  | (aa_matches, ptm_matches_1, ptm_matches_2, _) =>
      implies_at ptm_matches_1 aa_matches /\
      implies_at ptm_matches_2 aa_matches /\
      (np_sum ptm_matches_1 <= ptm_count ptm_list peptide1)%nat /\
      (np_sum ptm_matches_2 <= ptm_count ptm_list peptide2)%nat /\
      (np_sum ptm_matches_1 <= np_sum aa_matches)%nat /\
      (np_sum ptm_matches_2 <= np_sum aa_matches)%nat
  end.
Proof.
  unfold aa_match_prefix.
  destruct (prefix_walk_inv peptide1 peptide2 aa_dict ptm_list cum_tol ind_tol)
    as (I1 & I2 & (La & L1 & L2) & _ & _ & _ & _ & S1 & S2 & M1 & M2).
  set (w := prefix_walk peptide1 peptide2 aa_dict ptm_list cum_tol ind_tol) in *.
  pose proof (ptm_count_take_le ptm_list peptide1 (Z.to_nat (w_i1 w))).
  pose proof (ptm_count_take_le ptm_list peptide2 (Z.to_nat (w_i2 w))).
  repeat split; try assumption; try lia.
  - apply below_np_sum, implies_at_below; [congruence | exact M1].
  - apply below_np_sum, implies_at_below; [congruence | exact M2].
Qed.

Lemma aa_match_prefix_count_witness :
  aa_match_prefix ["G"; "A"]%string ["G"; "A"]%string demo_table []
                  (1 # 2) (1 # 10)
    = ([true; true], [false; false], [false; false], true) /\
  length ["G"; "A"]%string = length ["G"; "A"]%string.
Proof.
  split; [vm_compute; reflexivity |].
  pose proof (aa_match_prefix_count ["G"; "A"]%string ["G"; "A"]%string
                demo_table [] (1 # 2) (1 # 10)) as H.
  destruct (aa_match_prefix _ _ _ _ _ _) as [[[aa m1] m2] pep] eqn:E.
  destruct H as [_ H]. apply H.
  vm_compute in E. congruence.
Defined.

(** ** The loops end, and index inside their lists *)

(** Both [while] loops of the aligner end: within [len(peptide1) +
    len(peptide2)] turns the prefix walk has brought a cursor to the end of
    its peptide, and the suffix walk, from whatever arrays it starts, has
    brought a cursor below the stop index. *)
Theorem aa_match_loops_end (peptide1 peptide2 : list string)
    (aa_dict : aa_dict_t) (ptm_list : list string) (cum_tol ind_tol : Q) :
  let w := prefix_walk peptide1 peptide2 aa_dict ptm_list cum_tol ind_tol in
  (w_i1 w = Z.of_nat (length peptide1) \/ w_i2 w = Z.of_nat (length peptide2)) /\
  forall aa m1 m2,
    let w' := suffix_walk peptide1 peptide2 aa_dict ptm_list cum_tol ind_tol
                          aa m1 m2 in
    w_i1 w' < Z.of_nat (first_false aa) \/ w_i2 w' < Z.of_nat (first_false aa).
Proof.
  intros w. split.
  - pose proof (prefix_walk_terminates peptide1 peptide2 aa_dict ptm_list
                  cum_tol ind_tol) as G.
    destruct (prefix_walk_inv peptide1 peptide2 aa_dict ptm_list cum_tol ind_tol)
      as (I1 & I2 & _).
    fold w in G, I1, I2. unfold prefix_guard in G.
    apply andb_false_iff in G as [G | G]; apply Z.ltb_ge in G; [left | right]; lia.
  - intros aa m1 m2 w'.
    pose proof (suffix_walk_terminates peptide1 peptide2 aa_dict ptm_list
                  cum_tol ind_tol aa m1 m2) as G.
    fold w' in G. unfold suffix_guard in G.
    apply andb_false_iff in G as [G | G]; apply Z.leb_gt in G; [left | right]; lia.
Qed.

(** No turn of either loop indexes outside its lists: whenever a loop body
    runs, both cursors point at a token of their peptide (and are not
    negative, so Python does not wrap around), and the position
    [max(i1, i2)] that may be written exists in the arrays. *)
Theorem aa_match_index_in_range (peptide1 peptide2 : list string)
    (aa_dict : aa_dict_t) (ptm_list : list string) (cum_tol ind_tol : Q) :
  (forall w,
      reached (prefix_guard peptide1 peptide2)
              (walk_body peptide1 peptide2 aa_dict ptm_list cum_tol ind_tol 1)
              (prefix_init peptide1 peptide2) w ->
      prefix_guard peptide1 peptide2 w = true ->
      turn_in_range peptide1 peptide2 w) /\
  (forall aa m1 m2 w,
      length aa = Nat.max (length peptide1) (length peptide2) ->
      reached (suffix_guard (Z.of_nat (first_false aa)))
              (walk_body peptide1 peptide2 aa_dict ptm_list cum_tol ind_tol (-1))
              (suffix_init peptide1 peptide2 aa m1 m2) w ->
      suffix_guard (Z.of_nat (first_false aa)) w = true ->
      turn_in_range peptide1 peptide2 w).
Proof.
  split.
  - apply prefix_turn_in_range.
  - intros aa m1 m2 w. apply suffix_turn_in_range.
Qed.

Lemma aa_match_index_in_range_witness :
  turn_in_range ["G"; "A"]%string ["N"%string]
                (prefix_init ["G"; "A"]%string ["N"%string]).
Proof.
  apply (proj1 (aa_match_index_in_range ["G"; "A"]%string ["N"%string]
                  demo_table [] (1 # 2) (1 # 10))).
  - constructor.
  - reflexivity.
Defined.

(** ** What the suffix walk leaves alone *)

Lemma first_false_true (a : list bool) (j : nat) :
  (j < first_false a)%nat -> a !! j = Some true.
Proof.
  revert j. induction a as [| b a IH]; intros j H; simpl in H; [lia |].
  destruct b; [| lia]. destruct j as [| j]; [reflexivity |].
  simpl. apply IH. lia.
Qed.

Section LeadingRun.
Variables peptide1 peptide2 : list string.
Variable aa_dict : aa_dict_t.
Variable ptm_list : list string.
Variables cum_mass_threshold ind_mass_threshold : Q.

Lemma walk_body_kept_below (s : nat) (aa m1 m2 : list bool) (w : walk) :
  suffix_guard (Z.of_nat s) w = true ->
  kept_below s aa m1 m2 w ->
  kept_below s aa m1 m2
    (walk_body peptide1 peptide2 aa_dict ptm_list
               cum_mass_threshold ind_mass_threshold (-1) w).
Proof.
  intros G K j Hj. destruct (K j Hj) as (Ka & K1 & K2).
  unfold suffix_guard in G. apply andb_true_iff in G as [G1 G2].
  apply Z.leb_le in G1, G2.
  assert (N : Z.to_nat (Z.max (w_i1 w) (w_i2 w)) <> j) by lia.
  unfold walk_body.
  repeat match goal with |- context [if ?b then _ else _] => destruct b end;
    cbn [w_aa w_ptm1 w_ptm2];
    rewrite ?(list_lookup_insert_ne _ _ _ _ N); auto.
Qed.

Lemma suffix_walk_kept_below (aa m1 m2 : list bool) :
  kept_below (first_false aa) aa m1 m2
    (suffix_walk peptide1 peptide2 aa_dict ptm_list
                 cum_mass_threshold ind_mass_threshold aa m1 m2).
Proof.
  unfold suffix_walk. apply while_inv.
  - intros w. apply walk_body_kept_below.
  - intros j _. auto.
Qed.
End LeadingRun.

(** The suffix walk never writes below the stop index. Up to the first
    position the prefix walk left unmatched, what the aligner returns is
    what the prefix walk found: the match flags, all true there, and the
    two PTM flags. *)
Theorem aa_match_keeps_leading_run (peptide1 peptide2 : list string)
    (aa_dict : aa_dict_t) (ptm_list : list string) (cum_tol ind_tol : Q)
    (mode : string) (j : nat) :
  match aa_match_prefix peptide1 peptide2 aa_dict ptm_list cum_tol ind_tol with
  | (aa_matches, ptm_matches_1, ptm_matches_2, _) =>
      (j < first_false aa_matches)%nat ->
      let v := aa_match peptide1 peptide2 aa_dict ptm_list cum_tol ind_tol mode in
      v_aa v !! j = Some true /\
      v_ptm1 v !! j = ptm_matches_1 !! j /\
      v_ptm2 v !! j = ptm_matches_2 !! j
  end.
Proof.
  unfold aa_match, aa_match_prefix.
  set (w := prefix_walk peptide1 peptide2 aa_dict ptm_list cum_tol ind_tol).
  intros Hj. pose proof (first_false_true _ _ Hj) as T.
  destruct (np_all (w_aa w)).
  - unfold v_aa, v_ptm1, v_ptm2; simpl. auto.
  - destruct (suffix_walk_kept_below peptide1 peptide2 aa_dict ptm_list
                cum_tol ind_tol (w_aa w) (w_ptm1 w) (w_ptm2 w) j Hj)
      as (Ka & K1 & K2).
    unfold v_aa, v_ptm1, v_ptm2; simpl. rewrite Ka. auto.
Qed.

Lemma aa_match_keeps_leading_run_witness :
  (0 < first_false [true; true; false; false])%nat /\
  v_aa (aa_match ["K"; "Q"; "Q"; "Q"]%string ["Q"; "Q"]%string demo_table []
                 (1 # 2) (1 # 10) "best") !! 0%nat = Some true.
Proof.
  split; [simpl; lia |].
  pose proof (aa_match_keeps_leading_run ["K"; "Q"; "Q"; "Q"]%string
                ["Q"; "Q"]%string demo_table [] (1 # 2) (1 # 10) "best" 0) as H.
  destruct (aa_match_prefix _ _ _ _ _ _) as [[[aa m1] m2] pep] eqn:E.
  vm_compute in E. injection E as <- <- <- <-.
  apply H. simpl. lia.
Defined.

(** * Further properties of the tokenizer *)

Lemma greedy_segment_tokens (keys : list string) (s : string) (skip : nat) :
  List.Forall (fun token => In token keys /\ token <> EmptyString)
              (fst (greedy_segment keys s skip)).
Proof.
  revert skip. induction s as [| c s IH]; intros skip; [constructor |].
  destruct skip as [| skip]; cbn [greedy_segment]; [| apply IH].
  destruct (longest_key keys (String c s)) as [k |] eqn:L.
  - specialize (IH (String.length k - 1)%nat).
    destruct (greedy_segment keys s (String.length k - 1)) as [toks rest].
    cbn [fst] in *. constructor; [| exact IH].
    apply longest_key_some in L as (I & A & _). split; [exact I |].
    unfold applies in A. apply andb_true_iff in A as [N _].
    intros ->. discriminate.
  - specialize (IH O). destruct (greedy_segment keys s 0) as [toks rest].
    exact IH.
Qed.

Lemma split_peptide_greedy (peptide : string) (aa_dict : aa_dict_t)
    (parts : list string) :
  split_peptide peptide aa_dict = inr parts ->
  parts = fst (greedy_segment (dict_keys aa_dict) peptide 0).
Proof.
  unfold split_peptide. rewrite findall_greedy.
  destruct (String.eqb _ peptide); congruence.
Qed.

(** Every token the tokenizer returns is a key of the table, and none is
    the empty string. *)
Theorem split_peptide_tokens_are_keys (peptide : string) (aa_dict : aa_dict_t)
    (parts : list string) :
  split_peptide peptide aa_dict = inr parts ->
  List.Forall (fun token => In token (dict_keys aa_dict) /\ token <> EmptyString)
              parts.
Proof.
  intros H. apply split_peptide_greedy in H as ->. apply greedy_segment_tokens.
Qed.

Lemma split_peptide_tokens_are_keys_witness :
  split_peptide "GAM(+15.99)" demo_table = inr ["G"; "A"; "M(+15.99)"]%string /\
  List.Forall (fun token => In token (dict_keys demo_table) /\ token <> EmptyString)
              ["G"; "A"; "M(+15.99)"]%string.
Proof.
  assert (H : split_peptide "GAM(+15.99)" demo_table
              = inr ["G"; "A"; "M(+15.99)"]%string) by (vm_compute; reflexivity).
  split; [exact H |].
  exact (split_peptide_tokens_are_keys _ _ _ H).
Defined.

Lemma greedy_segment_skip_all (keys : list string) (s : string) :
  greedy_segment keys s (String.length s) = ([], []).
Proof. induction s as [| c s IH]; simpl; [reflexivity | exact IH]. Qed.

Lemma prefix_refl (k : string) : String.prefix k k = true.
Proof.
  induction k as [| c k IH]; simpl; [reflexivity |].
  destruct (ascii_dec c c); [exact IH | congruence].
Qed.

Lemma longest_key_of_key (keys : list string) (k : string) :
  In k keys -> nonempty k = true -> longest_key keys k = Some k.
Proof.
  intros I N.
  assert (A : applies k k = true).
  { unfold applies. rewrite N, prefix_refl. reflexivity. }
  destruct (longest_key keys k) as [k' |] eqn:L.
  - apply longest_key_some in L as (_ & A' & M). f_equal.
    unfold applies in A'. apply andb_true_iff in A' as [_ P'].
    apply (prefix_same_length _ _ k P' (prefix_refl k)).
    apply Nat.le_antisymm; [apply prefix_length, P' | apply M; assumption].
  - rewrite (longest_key_none _ _ L k I) in A. discriminate.
Qed.

(** Every non-empty key of the table tokenizes to itself, as one token,
    whatever shorter keys it is made of. *)
Theorem split_peptide_key (aa_dict : aa_dict_t) (k : string) :
  In k (dict_keys aa_dict) -> k <> EmptyString ->
  split_peptide k aa_dict = inr [k].
Proof.
  intros I N.
  assert (N' : nonempty k = true) by (destruct k; [congruence | reflexivity]).
  unfold split_peptide. rewrite findall_greedy.
  destruct k as [| c k0]; [congruence |].
  cbn [greedy_segment]. rewrite (longest_key_of_key _ _ I N').
  replace (String.length (String c k0) - 1)%nat with (String.length k0)
    by (simpl; lia).
  rewrite greedy_segment_skip_all. cbn [fst].
  rewrite concat_cons. simpl String.concat. rewrite append_empty_r.
  rewrite String.eqb_refl. reflexivity.
Qed.

Lemma split_peptide_key_witness :
  split_peptide "M(+15.99)" demo_table = inr ["M(+15.99)"%string].
Proof.
  apply (split_peptide_key demo_table "M(+15.99)").
  - simpl. tauto.
  - discriminate.
Defined.

(** The empty string tokenizes to no token at all, for every table, the
    empty table and a table with an empty key included. *)
Theorem split_peptide_empty (aa_dict : aa_dict_t) :
  split_peptide EmptyString aa_dict = inr [].
Proof.
  unfold split_peptide. rewrite findall_greedy. reflexivity.
Qed.

Lemma longest_key_same_keys (keys keys' : list string) (s : string) :
  (forall k, In k keys <-> In k keys') ->
  longest_key keys s = longest_key keys' s.
Proof.
  intros E.
  destruct (longest_key keys s) as [k |] eqn:L;
    destruct (longest_key keys' s) as [k' |] eqn:L'; try reflexivity.
  - apply longest_key_some in L as (I & A & M).
    apply longest_key_some in L' as (I' & A' & M'). f_equal.
    assert (P : String.prefix k s = true)
      by (unfold applies in A; apply andb_true_iff in A; tauto).
    assert (P' : String.prefix k' s = true)
      by (unfold applies in A'; apply andb_true_iff in A'; tauto).
    apply (prefix_same_length _ _ s P P').
    apply Nat.le_antisymm; [apply M' | apply M]; try assumption; apply E; assumption.
  - apply longest_key_some in L as (I & A & _).
    rewrite (longest_key_none _ _ L' k (proj1 (E k) I)) in A. discriminate.
  - apply longest_key_some in L' as (I' & A' & _).
    rewrite (longest_key_none _ _ L k' (proj2 (E k') I')) in A'. discriminate.
Qed.

Lemma greedy_segment_same_keys (keys keys' : list string) (s : string)
    (skip : nat) :
  (forall k, In k keys <-> In k keys') ->
  greedy_segment keys s skip = greedy_segment keys' s skip.
Proof.
  intros E. revert skip. induction s as [| c s IH]; intros skip; [reflexivity |].
  destruct skip as [| skip]; cbn [greedy_segment]; [| apply IH].
  rewrite (longest_key_same_keys keys keys' _ E).
  destruct (longest_key keys' (String c s)); rewrite IH; reflexivity.
Qed.

(** The tokenizer depends on the table only through its set of keys: two
    tables with the same keys, in any order and with any masses, tokenize
    every string alike. *)
Theorem split_peptide_same_keys (peptide : string) (aa_dict aa_dict' : aa_dict_t) :
  (forall k, In k (dict_keys aa_dict) <-> In k (dict_keys aa_dict')) ->
  split_peptide peptide aa_dict = split_peptide peptide aa_dict'.
Proof.
  intros E. unfold split_peptide. rewrite !findall_greedy.
  rewrite (greedy_segment_same_keys _ _ _ _ E). reflexivity.
Qed.

Lemma split_peptide_same_keys_witness :
  split_peptide "AGA" [("A"%string, 71 # 1); ("G"%string, 57 # 1)]%Q
  = split_peptide "AGA" [("G"%string, 1 # 1); ("A"%string, 2 # 1)]%Q.
Proof.
  apply (split_peptide_same_keys "AGA"
           [("A"%string, 71 # 1); ("G"%string, 57 # 1)]%Q
           [("G"%string, 1 # 1); ("A"%string, 2 # 1)]%Q).
  intros k. simpl. tauto.
Defined.

(** * Further properties of the batch evaluator *)

Lemma tally_add_assoc (t t1 t2 : tally) :
  tally_add t (tally_add t1 t2) = tally_add (tally_add t t1) t2.
Proof.
  unfold tally_add; simpl. rewrite app_assoc, !Nat.add_assoc. reflexivity.
Qed.

Lemma tally_add_empty_l (t : tally) : tally_add (MkTally [] 0 0 0 0) t = t.
Proof. destruct t. reflexivity. Qed.

Lemma shift_shift (log l1 : list call) (t t1 : tally)
    (r : list call * (error + tally)) :
  shift log t (shift l1 t1 r) = shift (log ++ l1) (tally_add t t1) r.
Proof.
  unfold shift; simpl. rewrite app_assoc.
  destruct (snd r); [reflexivity |]. rewrite tally_add_assoc. reflexivity.
Qed.

Lemma shift_error (log l1 : list call) (t : tally) (e : error) :
  shift log t (l1, inl e) = (log ++ l1, inl e).
Proof. reflexivity. Qed.

Section BatchShift.
Variable aa_dict : aa_dict_t.
Variable ptm_list : list string.
Variables cum_mass_threshold ind_mass_threshold : Q.
Variable mode : string.

Local Abbreviation step :=
  (batch_step aa_dict ptm_list cum_mass_threshold ind_mass_threshold mode).
Local Abbreviation loop :=
  (batch_loop aa_dict ptm_list cum_mass_threshold ind_mass_threshold mode).
Local Abbreviation batch :=
  (aa_match_batch aa_dict ptm_list cum_mass_threshold ind_mass_threshold mode).
Local Abbreviation empty := (MkTally [] 0 0 0 0).

Lemma tokenize_shift (p : peptide_in) (log : list call) :
  tokenize aa_dict p log
  = (log ++ fst (tokenize aa_dict p []), snd (tokenize aa_dict p [])).
Proof.
  destruct p as [s | l]; simpl.
  - unfold logged. destruct (split_peptide s aa_dict); reflexivity.
  - unfold ret; simpl. rewrite app_nil_r. reflexivity.
Qed.

(** A turn of the loop does the same whatever log and tally it starts from:
    it appends its calls, and merges what it counted. *)
Lemma batch_step_shift (t : tally) (pr : peptide_in * peptide_in)
    (log : list call) :
  step t pr log = shift log t (step empty pr []).
Proof.
  unfold batch_step, bind.
  rewrite (tokenize_shift (fst pr) log).
  destruct (tokenize aa_dict (fst pr) []) as [l1 [e1 | p1]]; cbn [fst snd];
    [reflexivity |].
  rewrite (tokenize_shift (snd pr) (log ++ l1)).
  rewrite (tokenize_shift (snd pr) l1).
  destruct (tokenize aa_dict (snd pr) []) as [l2 [e2 | p2]]; cbn [fst snd].
  - unfold shift; simpl. rewrite app_assoc. reflexivity.
  - destruct (length p2 =? 0)%nat; unfold ret, logged, shift, tally_add; simpl;
      rewrite <- ?app_assoc; reflexivity.
Qed.

Lemma batch_loop_shift (pairs : list (peptide_in * peptide_in)) (t : tally)
    (log : list call) :
  loop pairs t log = shift log t (loop pairs empty []).
Proof.
  revert t log. induction pairs as [| pr pairs IH]; intros t log.
  - unfold shift, ret, tally_add; simpl. rewrite !app_nil_r, !Nat.add_0_r.
    destruct t; reflexivity.
  - simpl. unfold bind.
    rewrite (batch_step_shift t pr log).
    destruct (step empty pr []) as [l1 [e1 | t1]]; [reflexivity |].
    unfold shift at 1; cbn [fst snd].
    rewrite (IH (tally_add t t1) (log ++ l1)), (IH t1 l1).
    symmetry. apply shift_shift.
Qed.

Lemma batch_loop_app (xs ys : list (peptide_in * peptide_in)) (t : tally)
    (log : list call) :
  loop (xs ++ ys) t log = bind (loop xs t) (loop ys) log.
Proof.
  revert t log. induction xs as [| pr xs IH]; intros t log; simpl.
  - reflexivity.
  - unfold bind. destruct (step t pr log) as [l1 [e1 | t1]]; [reflexivity |].
    rewrite IH. reflexivity.
Qed.

Lemma tokenize_tokens_of (p : peptide_in) (log : list call) :
  snd (tokenize aa_dict p log) = tokens_of aa_dict p.
Proof.
  destruct p as [s | l]; simpl; [| reflexivity].
  unfold logged. destruct (split_peptide s aa_dict); reflexivity.
Qed.

Lemma batch_step_tokens (t : tally) (pr : peptide_in * peptide_in)
    (log : list call) (l1 l2 : list string) :
  tokens_of aa_dict (fst pr) = inr l1 ->
  tokens_of aa_dict (snd pr) = inr l2 ->
  snd (step t pr log)
  = inr (tally_add t (tally_of aa_dict ptm_list cum_mass_threshold
                               ind_mass_threshold mode [(l1, l2)])).
Proof.
  intros T1 T2. unfold batch_step, bind.
  pose proof (tokenize_tokens_of (fst pr) log) as E1. rewrite T1 in E1.
  destruct (tokenize aa_dict (fst pr) log) as [g1 r1]. simpl in E1. subst r1.
  pose proof (tokenize_tokens_of (snd pr) g1) as E2. rewrite T2 in E2.
  destruct (tokenize aa_dict (snd pr) g1) as [g2 r2]. simpl in E2. subst r2.
  unfold tally_of, tally_add, pair_verdict; simpl.
  destruct (length l2 =? 0)%nat; unfold ret, logged; simpl;
    rewrite !Nat.add_0_r; reflexivity.
Qed.

Lemma batch_loop_tokens (pairs : list (peptide_in * peptide_in))
    (lpairs : list (list string * list string)) (t : tally) (log : list call) :
  Forall2 (fun pr lp => tokens_of aa_dict (fst pr) = inr (fst lp) /\
                        tokens_of aa_dict (snd pr) = inr (snd lp))
          pairs lpairs ->
  snd (loop pairs t log)
  = inr (tally_add t (tally_of aa_dict ptm_list cum_mass_threshold
                               ind_mass_threshold mode lpairs)).
Proof.
  intros F. revert t log. induction F as [| pr lp pairs lpairs [T1 T2] F IH];
    intros t log.
  - unfold tally_add, tally_of; simpl. rewrite app_nil_r, !Nat.add_0_r.
    destruct t; reflexivity.
  - simpl. unfold bind.
    pose proof (batch_step_tokens t pr log _ _ T1 T2) as S.
    destruct (step t pr log) as [g r]. simpl in S. subst r.
    rewrite IH. f_equal. rewrite <- tally_add_assoc. f_equal.
    destruct lp as [l1 l2]. unfold tally_of, tally_add; simpl.
    rewrite !Nat.add_0_r. reflexivity.
Qed.
End BatchShift.

Lemma Forall2_combine {A B C D} (R : A -> C -> Prop) (S : B -> D -> Prop)
    (l1 : list A) (l2 : list B) (k1 : list C) (k2 : list D) :
  Forall2 R l1 k1 -> Forall2 S l2 k2 ->
  Forall2 (fun x y => R (fst x) (fst y) /\ S (snd x) (snd y))
          (combine l1 l2) (combine k1 k2).
Proof.
  intros F1. revert l2 k2. induction F1 as [| a c l1 k1 Hac F1 IH];
    intros l2 k2 F2; [constructor |].
  destruct F2 as [| b d l2 k2 Hbd F2]; simpl; constructor; auto.
Qed.

Lemma combine_app_same {A B} (a1 b1 : list A) (a2 b2 : list B) :
  length a1 = length a2 ->
  combine (a1 ++ b1) (a2 ++ b2) = combine a1 a2 ++ combine b1 b2.
Proof.
  revert a2. induction a1 as [| x a1 IH]; intros [| y a2] L; try discriminate.
  - reflexivity.
  - simpl. f_equal. apply IH. simpl in L. lia.
Qed.

(** What the evaluator returns when nothing raises. With every PTM token in
    the table and every peptide either tokenized or a string the tokenizer
    accepts, it returns one verdict per pair, in the order of the pairs:
    the verdict of the aligner on the two token lists, or the all-false
    verdict when the prediction has no token; with them the total numbers
    of tokens and of PTM tokens on each side. *)
Theorem aa_match_batch_returns (aa_dict : aa_dict_t) (ptm_list : list string)
    (cum_tol ind_tol : Q) (mode : string)
    (peptides1 peptides2 : list peptide_in) (tokens1 tokens2 : list (list string)) :
  first_missing aa_dict ptm_list = None ->
  Forall2 (fun p l => tokens_of aa_dict p = inr l) peptides1 tokens1 ->
  Forall2 (fun p l => tokens_of aa_dict p = inr l) peptides2 tokens2 ->
  snd (run (aa_match_batch aa_dict ptm_list cum_tol ind_tol mode
                           peptides1 peptides2))
  = inr (tally_of aa_dict ptm_list cum_tol ind_tol mode
                  (combine tokens1 tokens2)).
Proof.
  intros Hm F1 F2. rewrite batch_run, Hm.
  rewrite (batch_loop_tokens _ _ _ _ _ _ _ _ _ (Forall2_combine _ _ _ _ _ _ F1 F2)).
  rewrite tally_add_empty_l. reflexivity.
Qed.

Lemma aa_match_batch_returns_witness :
  snd (run (aa_match_batch demo_table ["M(+15.99)"%string] (1 # 2) (1 # 10) "best"
              [PepStr "GA"; PepList ["N"%string]] [PepStr "GA"; PepStr ""]))
  = inr (MkTally [([true; true], true, [false; false], [false; false]);
                  ([false], false, [false], [false])] 3 2 0 0).
Proof.
  apply (aa_match_batch_returns demo_table ["M(+15.99)"%string] (1 # 2) (1 # 10)
           "best" [PepStr "GA"; PepList ["N"%string]] [PepStr "GA"; PepStr ""]
           [["G"; "A"]; ["N"]]%string [["G"; "A"]; []]%string).
  - reflexivity.
  - repeat constructor.
  - repeat constructor.
Defined.

(** Batches compose by concatenation. When the evaluator returns on a first
    batch (two lists of equal length) and on a second one, it returns on the
    two batches put end to end, with the verdicts of the first followed by
    those of the second, the four counts added, and the calls of the first
    followed by those of the second. *)
Theorem aa_match_batch_app (aa_dict : aa_dict_t) (ptm_list : list string)
    (cum_tol ind_tol : Q) (mode : string)
    (a1 a2 b1 b2 : list peptide_in) (la lb : list call) (ta tb : tally) :
  length a1 = length a2 ->
  run (aa_match_batch aa_dict ptm_list cum_tol ind_tol mode a1 a2) = (la, inr ta) ->
  run (aa_match_batch aa_dict ptm_list cum_tol ind_tol mode b1 b2) = (lb, inr tb) ->
  run (aa_match_batch aa_dict ptm_list cum_tol ind_tol mode (a1 ++ b1) (a2 ++ b2))
  = (la ++ lb, inr (tally_add ta tb)).
Proof.
  intros L. rewrite !batch_run.
  destruct (first_missing aa_dict ptm_list); [discriminate |].
  intros Ra Rb. rewrite (combine_app_same _ _ _ _ L), batch_loop_app.
  unfold bind. rewrite Ra. rewrite batch_loop_shift, Rb. reflexivity.
Qed.

Lemma aa_match_batch_app_witness :
  run (aa_match_batch demo_table [] (1 # 2) (1 # 10) "best"
         ([PepStr "GA"] ++ [PepList ["N"%string]])
         ([PepStr "GA"] ++ [PepList []]))
  = ([CallSplit "GA"; CallSplit "GA";
      CallAaMatch ["G"; "A"]%string ["G"; "A"]%string] ++ [],
     inr (tally_add
            (MkTally [([true; true], true, [false; false], [false; false])]
                     2 2 0 0)
            (MkTally [([false], false, [false], [false])] 1 0 0 0))).
Proof.
  apply (aa_match_batch_app demo_table [] (1 # 2) (1 # 10) "best"
           [PepStr "GA"] [PepStr "GA"] [PepList ["N"%string]] [PepList []]);
    vm_compute; reflexivity.
Defined.

(** A string the tokenizer rejects aborts the whole batch. After a first
    batch on which the evaluator returns, a truth string that does not
    tokenize makes it raise the tokenizer's error right after the call on
    that string: what was tallied so far is not returned, the prediction of
    that pair is not looked at and no later pair is touched. *)
Theorem aa_match_batch_aborts (aa_dict : aa_dict_t) (ptm_list : list string)
    (cum_tol ind_tol : Q) (mode : string)
    (a1 a2 b1 b2 : list peptide_in) (s : string) (p2 : peptide_in)
    (la : list call) (ta : tally) (e : error) :
  length a1 = length a2 ->
  run (aa_match_batch aa_dict ptm_list cum_tol ind_tol mode a1 a2) = (la, inr ta) ->
  split_peptide s aa_dict = inl e ->
  run (aa_match_batch aa_dict ptm_list cum_tol ind_tol mode
                      (a1 ++ PepStr s :: b1) (a2 ++ p2 :: b2))
  = (la ++ [CallSplit s], inl (ValueError_unmatched s)).
Proof.
  intros L. rewrite !batch_run.
  destruct (first_missing aa_dict ptm_list); [discriminate |].
  intros Ra Hs. rewrite (combine_app_same _ _ _ _ L), batch_loop_app.
  unfold bind. rewrite Ra. simpl. unfold bind, batch_step, bind. simpl.
  unfold logged. rewrite Hs.
  apply split_peptide_error in Hs as ->. reflexivity.
Qed.

Lemma aa_match_batch_aborts_witness :
  run (aa_match_batch demo_table [] (1 # 2) (1 # 10) "best"
         ([PepStr "GA"] ++ PepStr "GXA" :: [PepStr "??"])
         ([PepStr "GA"] ++ PepStr "!!" :: [PepStr "??"]))
  = ([CallSplit "GA"; CallSplit "GA";
      CallAaMatch ["G"; "A"]%string ["G"; "A"]%string] ++ [CallSplit "GXA"],
     inl (ValueError_unmatched "GXA")).
Proof.
  apply (aa_match_batch_aborts demo_table [] (1 # 2) (1 # 10) "best"
           [PepStr "GA"] [PepStr "GA"] [PepStr "??"] [PepStr "??"] "GXA"
           (PepStr "!!") _
           (MkTally [([true; true], true, [false; false], [false; false])]
                    2 2 0 0)
           (ValueError_unmatched "GXA"));
    vm_compute; reflexivity.
Defined.

(** * Further properties of the metric aggregator *)

(** Whenever the aggregator returns on counts that are not negative, as
    the counts of the batch evaluator are, none of its six values is
    negative, and the peptide precision and the area under the curve are at
    most one. *)
Theorem aa_match_metrics_ranges (batch : list verdict)
    (n_aa_true n_aa_pred n_ptm_true n_ptm_pred : Z) (scores : list Q)
    (m : metrics) :
  0 <= n_aa_true -> 0 <= n_aa_pred -> 0 <= n_ptm_true -> 0 <= n_ptm_pred ->
  aa_match_metrics batch n_aa_true n_aa_pred n_ptm_true n_ptm_pred scores = inr m ->
  (0 <= aa_precision m)%Q /\ (0 <= aa_recall m)%Q /\
  (0 <= ptm_recall m)%Q /\ (0 <= ptm_precision m)%Q /\
  (0 <= pep_precision m <= 1)%Q /\ (0 <= curve_auc m <= 1)%Q.
Proof.
  intros H1 H2 H3 H4 H.
  exact (aa_match_metrics_bounds _ _ _ _ _ _ _ H1 H2 H3 H4 H).
Qed.

Lemma aa_match_metrics_ranges_witness :
  exists m,
    aa_match_metrics [([true], true, [false], [false]);
                      ([false; true], false, [false; false], [false; false])]
                     3 2 0 0 [9 # 10; 8 # 10]%Q = inr m /\
    (0 <= pep_precision m <= 1)%Q /\ (0 <= curve_auc m <= 1)%Q.
Proof.
  eexists. split; [vm_compute; reflexivity |].
  eapply (aa_match_metrics_ranges
            [([true], true, [false], [false]);
             ([false; true], false, [false; false], [false; false])]
            3 2 0 0 [9 # 10; 8 # 10]%Q); try lia.
  vm_compute. reflexivity.
Defined.


(** ** Batches in which every pair, or no pair, fully matches *)



















(** * Precision and recall at a score threshold *)

Lemma count_above_cons (t x : Q) (l : list Q) :
  count_above t (x :: l)
  = ((if Qltb t x then 1 else 0) + count_above t l)%nat.
Proof.
  unfold count_above. destruct (Qltb t x) eqn:E.
  - rewrite filter_cons_True by exact E. reflexivity.
  - rewrite filter_cons_False by congruence. reflexivity.
Qed.

Lemma count_above_zero (t : Q) (l : list Q) :
  count_above t l = 0%nat <-> none_above t l.
Proof.
  unfold none_above.
  induction l as [| x l IH]; [split; [constructor | reflexivity] |].
  rewrite count_above_cons. destruct (Qltb t x) eqn:E.
  - split; [discriminate |]. intros H. apply List.Forall_inv in H.
    apply Qltb_lt in E. contradiction.
  - simpl. rewrite IH. apply Qltb_ge in E. split.
    + intros H. constructor; [lra | assumption].
    + intros H. exact (List.Forall_inv_tail H).
Qed.

Lemma count_above_le_length (t : Q) (l : list Q) :
  (count_above t l <= length l)%nat.
Proof. unfold count_above. apply length_filter. Qed.

Lemma count_above_sublist (t : Q) (l1 l2 : list Q) :
  sublist l1 l2 -> (count_above t l1 <= count_above t l2)%nat.
Proof.
  induction 1 as [| x l1 l2 _ IH | x l1 l2 _ IH]; [reflexivity | |];
    rewrite ?count_above_cons; destruct (Qltb t x); lia.
Qed.

Lemma count_above_threshold (t t' : Q) (l : list Q) :
  (t <= t')%Q -> (count_above t' l <= count_above t l)%nat.
Proof.
  intros H. induction l as [| x l IH]; [reflexivity |].
  rewrite !count_above_cons.
  destruct (Qltb t' x) eqn:E'; destruct (Qltb t x) eqn:E; try lia.
  apply Qltb_lt in E'. apply Qltb_ge in E. lra.
Qed.

Lemma count_unit (a : nat) (b : Z) :
  Z.of_nat a <= b -> 0 < b -> (0 <= Qnat a / inject_Z b <= 1)%Q.
Proof.
  intros B P.
  assert (Pq : (0 < inject_Z b)%Q)
    by (change 0%Q with (inject_Z 0); rewrite <- Zlt_Qlt; exact P).
  assert (Bq : (Qnat a <= inject_Z b)%Q)
    by (unfold Qnat; rewrite <- Zle_Qle; exact B).
  pose proof (Qnat_nonneg a). split.
  - apply Qle_shift_div_l; lra.
  - apply Qle_shift_div_r; lra.
Qed.

Lemma sum_is_numpy_true (numpy : bool) (scores : list Q) :
  sum_is_numpy numpy scores = true -> numpy = true /\ (0 < length scores)%nat.
Proof.
  unfold sum_is_numpy. intros H. apply andb_true_iff in H as [H1 H2].
  apply Nat.ltb_lt in H2. auto.
Qed.

(** With Python floats for the scores and the threshold the function raises
    [ZeroDivisionError] exactly when no predicted score lies strictly above
    the threshold or the total count is zero. In general it raises exactly
    when the count of correct scores is a Python int and either the total
    count is zero, or the count of predicted scores is a Python int too and
    no predicted score lies above the threshold. When the count of correct
    scores is a numpy integer (an [np.float64] among the threshold and the
    correct scores, which are not empty) and the total count fits 64 bits,
    the function returns: a precision of [nan] or [inf] when no predicted
    score lies above the threshold. *)
Theorem aa_precision_recall_raises (correct_numpy all_numpy : bool)
    (aa_scores_correct aa_scores_all : list Q) (n_aa_total : Z) (threshold : Q) :
  let r := aa_precision_recall correct_numpy all_numpy
                               aa_scores_correct aa_scores_all
                               n_aa_total threshold in
  let correct_is_numpy := sum_is_numpy correct_numpy aa_scores_correct in
  let predicted_is_numpy := sum_is_numpy all_numpy aa_scores_all in
  (correct_numpy = false -> all_numpy = false ->
   (r = inl ZeroDivisionError <->
    none_above threshold aa_scores_all \/ n_aa_total = 0)) /\
  (r = inl ZeroDivisionError <->
   correct_is_numpy = false /\
   ((predicted_is_numpy = false /\ none_above threshold aa_scores_all) \/
    n_aa_total = 0)) /\
  (correct_is_numpy = true -> fits_int64 n_aa_total ->
   exists precision recall,
     r = inr (precision, recall) /\
     (none_above threshold aa_scores_all ->
      precision = QuotNaN \/ precision = QuotInf)).
Proof.
  intros r Nc Na.
  assert (G : r = inl ZeroDivisionError <->
              Nc = false /\
              ((Na = false /\ none_above threshold aa_scores_all) \/
               n_aa_total = 0)).
  { subst r. unfold aa_precision_recall. fold Nc Na.
    rewrite <- count_above_zero. unfold true_divide. rewrite orb_false_r.
    destruct Nc, Na; simpl orb; cbv iota.
    1,2: split; [| intros [H _]; discriminate H].
    1,2: destruct (Z.of_nat _ =? 0), (n_aa_total =? 0); discriminate.
    - destruct (Z.of_nat _ =? 0); destruct (n_aa_total =? 0) eqn:E.
      1,3: apply Z.eqb_eq in E; tauto.
      1,2: apply Z.eqb_neq in E; split; [discriminate |];
           intros [_ [[H _] | H]]; [discriminate H | contradiction].
    - destruct (Z.of_nat (count_above threshold aa_scores_all) =? 0) eqn:E.
      + apply Z.eqb_eq in E. split; [intros _ | reflexivity].
        split; [reflexivity |]. left. split; [reflexivity | lia].
      + apply Z.eqb_neq in E. destruct (n_aa_total =? 0) eqn:E0.
        * apply Z.eqb_eq in E0. tauto.
        * apply Z.eqb_neq in E0. split; [discriminate |].
          intros [_ [[_ H] | H]]; [lia | contradiction]. }
  split; [| split; [exact G |]].
  - intros -> ->. rewrite G. subst Nc Na. unfold sum_is_numpy. simpl andb.
    tauto.
  - intros C _. subst r. unfold aa_precision_recall. fold Nc Na. rewrite C.
    unfold true_divide. simpl orb. cbv iota.
    destruct (Z.of_nat (count_above threshold aa_scores_all) =? 0) eqn:E;
      destruct (n_aa_total =? 0); eexists _, _; (split; [reflexivity |]).
    1,2: intros _; destruct (count_above threshold aa_scores_correct =? 0)%nat;
         auto.
    1,2: intros F; apply count_above_zero in F; apply Z.eqb_neq in E; lia.
Qed.

Lemma aa_precision_recall_raises_witness :
  aa_precision_recall false false [3 # 10]%Q [3 # 10; 2 # 10]%Q 4 (1 # 2)
  = inl ZeroDivisionError /\
  fits_int64 4 /\
  exists precision recall,
    aa_precision_recall true true [3 # 10]%Q [3 # 10; 2 # 10]%Q 4 (1 # 2)
    = inr (precision, recall).
Proof.
  pose proof (aa_precision_recall_raises false false [3 # 10]%Q [3 # 10; 2 # 10]%Q
                4 (1 # 2)) as [P _].
  pose proof (aa_precision_recall_raises true true [3 # 10]%Q [3 # 10; 2 # 10]%Q
                4 (1 # 2)) as [_ [_ N]].
  assert (F : fits_int64 4) by (unfold fits_int64; lia).
  split; [| split; [exact F |]].
  - apply (P eq_refl eq_refl). left. repeat constructor; discriminate.
  - destruct (N eq_refl F) as (precision & recall & R & _).
    exists precision, recall. exact R.
Defined.

(** A worked example: with numpy scalars and no score above the threshold
    the precision is [nan]; with Python floats the call raises. *)
Lemma aa_precision_recall_no_score_above :
  aa_precision_recall true true [3 # 10]%Q [3 # 10; 2 # 10]%Q 4 (1 # 2)
  = inr (QuotNaN, Quot (0 # 4)) /\
  aa_precision_recall false false [3 # 10]%Q [3 # 10; 2 # 10]%Q 4 (1 # 2)
  = inl ZeroDivisionError.
Proof. split; vm_compute; reflexivity. Qed.

(** When the correct scores are a sub-list of the predicted scores, the
    precision returned lies between zero and one, unless no predicted score
    lies above the threshold, which with numpy scalars returns [nan] (and
    with Python floats raises); when besides the total count is at least the
    number of correct scores, the recall returned lies between zero and
    one. *)
Theorem aa_precision_recall_ranges (correct_numpy all_numpy : bool)
    (aa_scores_correct aa_scores_all : list Q)
    (n_aa_total : Z) (threshold : Q) (precision recall : quotient) :
  sublist aa_scores_correct aa_scores_all ->
  aa_precision_recall correct_numpy all_numpy aa_scores_correct aa_scores_all
                      n_aa_total threshold
  = inr (precision, recall) ->
  ((exists p, precision = Quot p /\ (0 <= p <= 1)%Q) \/
   (precision = QuotNaN /\ (correct_numpy = true \/ all_numpy = true) /\
    none_above threshold aa_scores_all)) /\
  (Z.of_nat (length aa_scores_correct) <= n_aa_total ->
   exists r, recall = Quot r /\ (0 <= r <= 1)%Q).
Proof.
  intros S. unfold aa_precision_recall.
  pose proof (count_above_sublist threshold _ _ S) as C.
  pose proof (count_above_le_length threshold aa_scores_correct) as Lc.
  pose proof (count_above_zero threshold aa_scores_all) as Z0.
  set (nc := count_above threshold aa_scores_correct) in *.
  set (np := count_above threshold aa_scores_all) in *.
  destruct (true_divide nc (sum_is_numpy correct_numpy aa_scores_correct)
              (Z.of_nat np) (sum_is_numpy all_numpy aa_scores_all))
    as [e | pr] eqn:D1; [discriminate |].
  destruct (true_divide nc (sum_is_numpy correct_numpy aa_scores_correct)
              n_aa_total false) as [e | rc] eqn:D2; [discriminate |].
  intros [= <- <-]. split.
  - clear D2. unfold true_divide in D1.
    destruct (_ || _) eqn:O.
    + destruct (Z.of_nat np =? 0) eqn:E; injection D1 as <-.
      * apply Z.eqb_eq in E. right.
        assert (nc = 0%nat) as -> by lia. simpl.
        repeat split; [| apply Z0; lia].
        apply orb_true_iff in O as [O | O];
          apply sum_is_numpy_true in O; tauto.
      * apply Z.eqb_neq in E. left. eexists. split; [reflexivity |].
        apply count_unit; lia.
    + destruct (Z.of_nat np =? 0) eqn:E; [discriminate |]. injection D1 as <-.
      apply Z.eqb_neq in E. left. eexists. split; [reflexivity |].
      apply count_unit; lia.
  - clear D1. intros T. unfold true_divide in D2. rewrite orb_false_r in D2.
    assert (P : n_aa_total <> 0 -> 0 < n_aa_total) by lia.
    destruct (sum_is_numpy correct_numpy aa_scores_correct) eqn:N.
    + apply sum_is_numpy_true in N as [_ N].
      destruct (n_aa_total =? 0) eqn:E; [apply Z.eqb_eq in E; lia |].
      apply Z.eqb_neq in E. injection D2 as <-.
      eexists. split; [reflexivity |]. apply count_unit; lia.
    + destruct (n_aa_total =? 0) eqn:E; [discriminate |].
      apply Z.eqb_neq in E. injection D2 as <-.
      eexists. split; [reflexivity |]. apply count_unit; lia.
Qed.

Lemma aa_precision_recall_ranges_witness :
  aa_precision_recall true true [9 # 10; 3 # 10]%Q [9 # 10; 8 # 10; 3 # 10]%Q
                      4 (1 # 2)
  = inr (Quot (1 # 2), Quot (1 # 4)) /\
  (exists r, Quot (1 # 4) = Quot r /\ (0 <= r <= 1)%Q).
Proof.
  assert (H : aa_precision_recall true true [9 # 10; 3 # 10]%Q
                [9 # 10; 8 # 10; 3 # 10]%Q 4 (1 # 2)
              = inr (Quot (1 # 2), Quot (1 # 4)))
    by (vm_compute; reflexivity).
  split; [exact H |].
  assert (S : sublist [9 # 10; 3 # 10]%Q [9 # 10; 8 # 10; 3 # 10]%Q)
    by (repeat constructor).
  destruct (aa_precision_recall_ranges _ _ _ _ _ _ _ _ S H) as [_ R].
  apply R. simpl. lia.
Defined.

(** Raising the threshold never raises the recall: with the same lists and
    a positive total count, the recall returned at a higher threshold is at
    most the recall returned at a lower one, with Python floats as with
    numpy scalars. *)
Theorem aa_precision_recall_recall_decreases
    (correct_numpy all_numpy correct_numpy' all_numpy' : bool)
    (aa_scores_correct aa_scores_all : list Q) (n_aa_total : Z)
    (threshold threshold' : Q) (precision precision' : quotient)
    (recall recall' : Q) :
  (threshold <= threshold')%Q -> 0 < n_aa_total ->
  aa_precision_recall correct_numpy all_numpy aa_scores_correct aa_scores_all
                      n_aa_total threshold
  = inr (precision, Quot recall) ->
  aa_precision_recall correct_numpy' all_numpy' aa_scores_correct aa_scores_all
                      n_aa_total threshold'
  = inr (precision', Quot recall') ->
  (recall' <= recall)%Q.
Proof.
  intros T P. unfold aa_precision_recall.
  assert (E : (n_aa_total =? 0) = false) by (apply Z.eqb_neq; lia).
  assert (D : forall a an, true_divide a an n_aa_total false
                           = inr (Quot (Qnat a / inject_Z n_aa_total))).
  { intros a an. unfold true_divide. rewrite E. destruct (an || false); reflexivity. }
  rewrite !D.
  destruct (true_divide _ _ (Z.of_nat _) _); [discriminate |].
  destruct (true_divide _ _ (Z.of_nat _) _); [discriminate |].
  intros [= _ <-] [= _ <-].
  unfold Qdiv. apply Qmult_le_compat_r.
  - apply Qnat_le, count_above_threshold, T.
  - apply Qinv_le_0_compat. change 0%Q with (inject_Z 0).
    rewrite <- Zle_Qle. lia.
Qed.

Lemma aa_precision_recall_recall_decreases_witness :
  (1 # 2 <= 17 # 20)%Q /\ 0 < 4 /\ (1 # 4 <= 2 # 4)%Q.
Proof.
  assert (T : (1 # 2 <= 17 # 20)%Q) by (vm_compute; discriminate).
  assert (P : 0 < 4) by lia.
  split; [exact T | split; [exact P |]].
  apply (aa_precision_recall_recall_decreases false false true true
           [9 # 10; 8 # 10]%Q [9 # 10; 8 # 10; 3 # 10]%Q 4
           (1 # 2) (17 # 20) (Quot (2 # 2)) (Quot (1 # 1)) (2 # 4) (1 # 4) T P);
    vm_compute; reflexivity.
Defined.
